(** * Kirk Cataloger: the progress, viewer and catalog protocol of
      [backend/server.py], embedded and verified.

    The server keeps three key families in one Redis instance
    ([catalog:<id>], [progress:<id>], [connections:<id>]) and drives one
    enrichment run per start request.  The embedding follows the Python
    text function by function: Redis is a record of three finite maps, every
    function that talks to Redis or to one of the two web APIs is a
    computation in a small state-and-log monad, and whatever lies outside the
    program text (other requests touching the same keys, the clock, the
    YouTube and MusicBrainz answers) is a [World] the computations are
    parametrised by.  The stream endpoint acts on Redis only by reading and
    by [incrementConnections]/[decrementConnections]; it appears here as the
    attach and detach of a viewer, and, seen from a run, as part of the
    world's interference.  Key expiry is interference too. *)

From stdpp Require Import base gmap strings list fin_maps sorting.
From Stdlib Require Import ZArith QArith Ascii String Lia.

Open Scope string_scope.
Open Scope Z_scope.
Open Scope list_scope.

(** ** Exceptions *)

(** [class PlaylistError(Exception)]: a message and an HTTP status code
    ([status_code=500] when the raiser gives none). *)
Record PlaylistError := mkPlaylistError {
  message : string;
  status_code : Z
}.

(** ** Identifier extraction *)

Module Url.

(** The character class [[a-zA-Z0-9_-]] of the pattern. *)
Definition idChar (c : ascii) : bool :=
  let n := N_of_ascii c in
  ((97 <=? n) && (n <=? 122) || (65 <=? n) && (n <=? 90)
   || (48 <=? n) && (n <=? 57) || (n =? 95) || (n =? 45))%N.

(** Group 1, [[a-zA-Z0-9_-]+], matched greedily from the head of [s];
    nothing follows the group in the pattern, so no backtracking occurs. *)
Fixpoint takeRun (s : string) : string :=
  match s with
  | String c r => if idChar c then String c (takeRun r) else EmptyString
  | EmptyString => EmptyString
  end.

(** The literal part of a pattern, [p], matched at the head of [s]; the
    result is what follows it in [s]. *)
Fixpoint literal (p s : string) : option string :=
  match p, s with
  | EmptyString, _ => Some s
  | String a p', String b s' => if Ascii.eqb a b then literal p' s' else None
  | String _ _, EmptyString => None
  end.

(** The pattern [list=([a-zA-Z0-9_-]+)] anchored at the head of [s];
    the result is group 1. *)
Definition match_here (s : string) : option string :=
  match literal "list=" s with
  | Some r =>
      match takeRun r with
      | EmptyString => None
      | g => Some g
      end
  | None => None
  end.

(** [re.search]: the match at the leftmost position that has one. *)
Fixpoint re_search (s : string) : option string :=
  match match_here s with
  | Some g => Some g
  | None =>
      match s with
      | EmptyString => None
      | String _ r => re_search r
      end
  end.

(** The vocabulary the statements about [filterPlaylistId] use. *)

(** [s] is a run of identifier characters. *)
Fixpoint is_run (s : string) : bool :=
  match s with
  | String c r => idChar c && is_run r
  | EmptyString => true
  end.

(** A run cannot be extended into [s]: [s] is empty or starts with a
    character outside the class. *)
Definition stops_run (s : string) : bool :=
  match s with
  | String c _ => negb (idChar c)
  | EmptyString => true
  end.

(** A [list=<id>] token starts at the head of [s]: the five characters
    [list=] and then at least one identifier character. *)
Definition token_here (s : string) : Prop :=
  ∃ c r, s = ("list=" ++ String c r)%string ∧ idChar c = true.

(** No token starts at any of the first [n] positions of [url]. *)
Definition no_token_before (n : nat) (url : string) : Prop :=
  ∀ a b, url = (a ++ b)%string → (String.length a < n)%nat → ¬ token_here b.

(** No token starts anywhere in [url]. *)
Definition no_token (url : string) : Prop :=
  ∀ a b, url = (a ++ b)%string → ¬ token_here b.

(** The same two, decided: does a token start at the head of [s], does one
    start at any of the first [n] positions of [s]. *)
Definition token_hereb (s : string) : bool :=
  match literal "list=" s with
  | Some (String c _) => idChar c
  | _ => false
  end.

Fixpoint token_before (n : nat) (s : string) : bool :=
  match n with
  | O => false
  | S n' =>
      token_hereb s
      || match s with
         | String _ r => token_before n' r
         | EmptyString => false
         end
  end.

End Url.

(** [filterPlaylistId(url)]: [inl] is the raised [PlaylistError]. *)
Definition filterPlaylistId (url : string) : PlaylistError + string :=
  match Url.re_search url with
  | None => inl (mkPlaylistError "Invalid YouTube playlist URL" 400)
  | Some g => inr g
  end.

(** ** Title classifiers *)

(** [filterDate] and [filterType] search the video title with [\b]-delimited
    patterns.  The definitions below are the two functions on titles made of
    ASCII characters ([ascii_only]), where a character of the title, a
    character of the Rocq string and a code point are the same thing and
    [\w], [\d] and [re.IGNORECASE] are the ASCII classes.  On any other
    title Python decides with its Unicode tables, which are not in this
    file: every statement about the two functions is about ASCII titles. *)
Module Title.

(** Every character of the title is an ASCII character. *)
Fixpoint ascii_only (s : string) : bool :=
  match s with
  | EmptyString => true
  | String c r => (N_of_ascii c <? 128)%N && ascii_only r
  end.

(** [\d] on an ASCII character. *)
Definition digitChar (c : ascii) : bool :=
  let n := N_of_ascii c in ((48 <=? n) && (n <=? 57))%N.

(** [\w] on an ASCII character: a letter, a digit or [_]. *)
Definition wordChar (c : ascii) : bool :=
  let n := N_of_ascii c in
  ((48 <=? n) && (n <=? 57) || (65 <=? n) && (n <=? 90) || (n =? 95)
   || (97 <=? n) && (n <=? 122))%N.

(** [\b] in front of a word character: the character before, if any, is not
    a word character. *)
Definition boundary_before (prev : option ascii) : bool :=
  match prev with
  | None => true
  | Some c => negb (wordChar c)
  end.

(** [\b] behind a word character: the character after, if any, is not a word
    character. *)
Definition boundary_after (s : string) : bool :=
  match s with
  | EmptyString => true
  | String c _ => negb (wordChar c)
  end.

(** The value of a decimal digit. *)
Definition digit_value (c : ascii) : Z := Z.of_N (N_of_ascii c) - 48.

(** [\b(19|20)\d{2}\b] anchored at the head of [s], [prev] being the
    character before it; the result is [int(match.group())]. *)
Definition year_here (prev : option ascii) (s : string) : option Z :=
  match s with
  | String c1 (String c2 (String c3 (String c4 rest))) =>
      if boundary_before prev
         && (Ascii.eqb c1 "1" && Ascii.eqb c2 "9"
             || Ascii.eqb c1 "2" && Ascii.eqb c2 "0")
         && digitChar c3 && digitChar c4
         && boundary_after rest
      then Some (1000 * digit_value c1 + 100 * digit_value c2
                 + 10 * digit_value c3 + digit_value c4)
      else None
  | _ => None
  end.

(** [re.search] for the year pattern: the leftmost match. *)
Fixpoint year_search (prev : option ascii) (s : string) : option Z :=
  match year_here prev s with
  | Some y => Some y
  | None =>
      match s with
      | EmptyString => None
      | String c r => year_search (Some c) r
      end
  end.

Definition filterDate (title : string) : option Z :=
  match year_search None title with
  | Some y => if (1900 <=? y) && (y <=? 2024) then Some y else None
  | None => None
  end.

(** What [re.IGNORECASE] compares: the ASCII character of the title folded
    to lower case. *)
Definition fold (c : ascii) : ascii :=
  let n := N_of_ascii c in
  if ((65 <=? n) && (n <=? 90))%N then ascii_of_N (n + 32) else c.

(** A lower-case literal [w] matched at the head of [s], ignoring case; the
    result is what follows it in [s]. *)
Fixpoint literal_i (w s : string) : option string :=
  match w, s with
  | EmptyString, _ => Some s
  | String a w', String b s' =>
      if Ascii.eqb a (fold b) then literal_i w' s' else None
  | String _ _, EmptyString => None
  end.

(** [\bw\b], ignoring case, anchored at the head of [s]. *)
Definition word_here (w : string) (prev : option ascii) (s : string) : bool :=
  boundary_before prev
  && match literal_i w s with
     | Some rest => boundary_after rest
     | None => false
     end.

(** [re.search(...)] as a truth value: does the anchored pattern [here]
    match at some position of [s]. *)
Fixpoint search (here : option ascii → string → bool) (prev : option ascii)
    (s : string) : bool :=
  here prev s
  || match s with
     | EmptyString => false
     | String c r => search here (Some c) r
     end.

Definition filterType (title : string) : string :=
  if search (λ prev s, word_here "album" prev s || word_here "lp" prev s)
            None title
  then "Album"
  else if search (word_here "ep") None title then "EP"
  else if search (word_here "single") None title then "Single"
  else "Unknown".

(** The vocabulary of the statements about the classifiers. *)

(** The last character of [s]. *)
Fixpoint last_char (s : string) : option ascii :=
  match s with
  | EmptyString => None
  | String c EmptyString => Some c
  | String _ r => last_char r
  end.

(** The character in front of what follows [a], when [prev] is in front of
    [a]. *)
Definition before (prev : option ascii) (a : string) : option ascii :=
  match last_char a with
  | Some c => Some c
  | None => prev
  end.

(** [s] with every character folded. *)
Fixpoint fold_all (s : string) : string :=
  match s with
  | EmptyString => EmptyString
  | String c r => String (fold c) (fold_all r)
  end.

(** No character of [s] is [a] or [b]. *)
Fixpoint without (a b : ascii) (s : string) : bool :=
  match s with
  | EmptyString => true
  | String c r => negb (Ascii.eqb c a) && negb (Ascii.eqb c b) && without a b r
  end.

End Title.

(** ** Data model *)

(** A Python [float].  The program only carries floats around (a match score,
    a clock reading), it never computes with them. *)
Definition PyFloat := Q.

(** The ['score'] of an entry: the integer [0] written at fetch time, or the
    [float(...)] written by enrichment. *)
Inductive Score :=
| ScoreInt (n : Z)
| ScoreFloat (x : PyFloat).

(** The ['date'] of an entry: [filterDate]'s year or [None] at fetch time,
    MusicBrainz's date string after enrichment. *)
Inductive DateVal :=
| DateNone
| DateYear (y : Z)
| DateStr (s : string).

(** One catalog entry: the dict built in [playlistData]. *)
Record Entry := mkEntry {
  position : Z;
  score : Score;
  title : string;
  artist : string;
  date : DateVal;
  type : string;
  mbid : string;
  ytname : string;
  ytlink : string;
  channel : string
}.

(** A progress record: the dict written by [saveProgress]. *)
Record Progress := mkProgress {
  status : string;
  currentItem : Z;
  totalItems : Z;
  timestamp : PyFloat;
  activeConnections : Z
}.

(** Redis, restricted to the three key families of the server.  Keys of
    different families never coincide (their prefixes differ), so one map per
    family is the same as one map over the full key strings.
    [catalog:<id>] holds [json.dumps] of a list of entries, [progress:<id>]
    of a progress dict, [connections:<id>] the integer of INCR/DECR. *)
Record Redis := mkRedis {
  catalog_key : gmap string (list Entry);
  progress_key : gmap string Progress;
  connections_key : gmap string Z
}.

Definition no_keys : Redis := mkRedis ∅ ∅ ∅.

(** What SETEX and DEL do to one key of each family. *)
Definition set_catalog (id : string) (v : list Entry) (r : Redis) : Redis :=
  mkRedis (<[id:=v]> (catalog_key r)) (progress_key r) (connections_key r).

Definition set_progress (id : string) (v : Progress) (r : Redis) : Redis :=
  mkRedis (catalog_key r) (<[id:=v]> (progress_key r)) (connections_key r).

Definition set_connections (id : string) (n : Z) (r : Redis) : Redis :=
  mkRedis (catalog_key r) (progress_key r) (<[id:=n]> (connections_key r)).

Definition del_catalog (id : string) (r : Redis) : Redis :=
  mkRedis (delete id (catalog_key r)) (progress_key r) (connections_key r).

Definition del_progress (id : string) (r : Redis) : Redis :=
  mkRedis (catalog_key r) (delete id (progress_key r)) (connections_key r).

Definition del_connections (id : string) (r : Redis) : Redis :=
  mkRedis (catalog_key r) (progress_key r) (delete id (connections_key r)).

(** The viewer count of [id] as INCR, DECR and [saveProgress] read it:
    an absent key counts as 0. *)
Definition viewers (r : Redis) (id : string) : Z :=
  default 0 (connections_key r !! id).

(** *** The two web APIs *)

(** One item of a [playlistItems().list] page, reduced to what the program
    reads: [snippet.position], [snippet.title], [snippet.channelTitle],
    [contentDetails.videoId]. *)
Record YtItem := mkYtItem {
  snippet_position : Z;
  snippet_title : string;
  snippet_channelTitle : string;
  contentDetails_videoId : string
}.

(** What YouTube answers to the successive page requests of one
    [playlistData] call: a request raises (also: the answer lacks a key the
    program indexes), or it returns a page without a truthy [nextPageToken],
    or a page with one, and then the answers to the requests that follow. *)
Inductive Listing :=
| ListingRaises
| LastPage (items : list YtItem)
| NextPage (items : list YtItem) (following : Listing).

(** One artist credit: [credit.get('name', '')], [credit.get('joinphrase', '')]. *)
Record Credit := mkCredit {
  credit_name : option string;
  credit_joinphrase : option string
}.

(** A release of a MusicBrainz ['release-list'], reduced to the keys the
    program reads with [.get]; [None] is a missing key. *)
Record Release := mkRelease {
  ext_score : option string;
  release_title : option string;
  artist_credit : option (list Credit);
  release_date : option string;
  release_group_primary_type : option (option string);
  release_id : option string
}.

(** What [musicbrainzngs.search_releases] does: raise, or return a result;
    [release_list] is [None] when the result is falsy or has no
    ['release-list'] key. *)
Inductive SearchOutcome :=
| SearchRaises
| SearchReturns (release_list : option (list Release)).

(** ** The world around one request *)

(** Everything a request meets that is not in its own text.  All four are
    indexed by the number of effects the request has performed so far, so
    they may answer differently each time.
    - [interfere n r]: what the other requests (and key expiry) have made of
      Redis [r] when this request issues its next Redis command;
    - [time_time]: the clock;
    - [playlistItems]: YouTube's answers for a playlist identifier;
    - [search_releases]: MusicBrainz's answer to a query. *)
Record World := mkWorld {
  interfere : nat → Redis → Redis;
  time_time : nat → PyFloat;
  playlistItems : nat → string → Listing;
  search_releases : nat → string → SearchOutcome
}.

(** Nobody else touches Redis while the request runs. *)
Definition quiet (W : World) : Prop := ∀ n r, interfere W n r = r.

(** ** Effects *)

(** What a request does, in order: its Redis commands with their replies,
    its calls to the two web APIs, its sleeps. *)
Inductive Event :=
| GET_catalog (id : string) (reply : option (list Entry))
| GET_progress (id : string) (reply : option Progress)
| GET_connections (id : string) (reply : option Z)
| SETEX_catalog (id : string) (value : list Entry)
| SETEX_progress (id : string) (value : Progress)
| DEL_catalog (id : string)
| DEL_progress (id : string)
| DEL_connections (id : string)
| INCR_connections (id : string) (reply : Z)
| DECR_connections (id : string) (reply : Z)
| YouTube_list (id : string)
| MusicBrainz_search (query : string)
| Sleep.

(** The state a request threads: how many effects it has performed, and
    Redis as its last command left it. *)
Record State := mkState {
  ticks : nat;
  redis : Redis
}.

(** A computation: from a state to a result, the state after, and the events
    it performed. *)
Definition M (A : Type) : Type := State → A * State * list Event.

Definition result_of {A} (o : A * State * list Event) : A := o.1.1.
Definition state_of {A} (o : A * State * list Event) : State := o.1.2.
Definition events_of {A} (o : A * State * list Event) : list Event := o.2.

Definition ret {A} (a : A) : M A := λ st, (a, st, []).

Definition bind {A B} (m : M A) (k : A → M B) : M B :=
  λ st, let o1 := m st in
        let o2 := k (result_of o1) (state_of o1) in
        (result_of o2, state_of o2, events_of o1 ++ events_of o2).

Notation "x <- m ;; k" := (bind m (λ x, k))
  (at level 100, m at next level, right associativity).
Notation "m ;;; k" := (bind m (λ _, k))
  (at level 100, right associativity).

(** ** The program *)

Section Server.

(** The world the request runs in. *)
Variable W : World.

(** Python's [float] on a string; [None] is [ValueError]. *)
Variable float : string → option PyFloat.

(** The two title classifiers ([filterDate], [filterType]): regular
    expressions over the video title whose results only fill the [date] and
    [type] fields at fetch time; nothing below depends on which year or kind
    they find. *)
Variable filterDate : string → option Z.
Variable filterType : string → string.

(** *** Redis commands *)

(** One Redis command: the other requests have had their turn
    ([interfere]), then the command runs atomically on what they left. *)
Definition command {A} (run : Redis → A * Redis) (ev : A → Event) : M A :=
  λ st, let o := run (interfere W (ticks st) (redis st)) in
        (o.1, mkState (S (ticks st)) o.2, [ev o.1]).

(** A call that leaves Redis alone: the clock, a web API, a sleep. *)
Definition outside {A} (ask : nat → A) (ev : list Event) : M A :=
  λ st, (ask (ticks st), mkState (S (ticks st)) (redis st), ev).

Definition redis_get_catalog (id : string) : M (option (list Entry)) :=
  command (λ r, (catalog_key r !! id, r)) (GET_catalog id).

Definition redis_get_progress (id : string) : M (option Progress) :=
  command (λ r, (progress_key r !! id, r)) (GET_progress id).

Definition redis_get_connections (id : string) : M (option Z) :=
  command (λ r, (connections_key r !! id, r)) (GET_connections id).

Definition redis_setex_catalog (id : string) (v : list Entry) : M unit :=
  command (λ r, (tt, set_catalog id v r)) (λ _, SETEX_catalog id v).

Definition redis_setex_progress (id : string) (v : Progress) : M unit :=
  command (λ r, (tt, set_progress id v r)) (λ _, SETEX_progress id v).

Definition redis_delete_catalog (id : string) : M unit :=
  command (λ r, (tt, del_catalog id r)) (λ _, DEL_catalog id).

Definition redis_delete_progress (id : string) : M unit :=
  command (λ r, (tt, del_progress id r)) (λ _, DEL_progress id).

Definition redis_delete_connections (id : string) : M unit :=
  command (λ r, (tt, del_connections id r)) (λ _, DEL_connections id).

(** INCR and DECR start from 0 when the key is absent and reply with the new
    value. *)
Definition redis_incr (id : string) : M Z :=
  command (λ r, (viewers r id + 1, set_connections id (viewers r id + 1) r))
          (INCR_connections id).

Definition redis_decr (id : string) : M Z :=
  command (λ r, (viewers r id - 1, set_connections id (viewers r id - 1) r))
          (DECR_connections id).

(** *** Cache helpers *)

Definition artistFormat (data : list Credit) : string :=
  foldr (λ credit acc, (default "" (credit_name credit)
                        ++ default "" (credit_joinphrase credit) ++ acc)%string)
        "" data.

Definition saveCatalog (playlistId : string) (catalog : list Entry) : M unit :=
  redis_setex_catalog playlistId catalog.

Definition getCatalog (playlistId : string) : M (option (list Entry)) :=
  redis_get_catalog playlistId.

Definition clearCatalog (playlistId : string) : M unit :=
  redis_delete_catalog playlistId.

Definition saveProgress (playlistId : string) (currentItem totalItems : Z)
    (status : string) : M unit :=
  activeConns <- redis_get_connections playlistId ;;
  now <- outside (time_time W) [] ;;
  redis_setex_progress playlistId
    (mkProgress status currentItem totalItems now (default 0 activeConns)).

Definition getProgress (playlistId : string) : M (option Progress) :=
  redis_get_progress playlistId.

Definition clearProgress (playlistId : string) : M unit :=
  redis_delete_progress playlistId ;;;
  redis_delete_connections playlistId ;;;
  clearCatalog playlistId.

Definition incrementConnections (playlistId : string) : M Z :=
  redis_incr playlistId.

Definition decrementConnections (playlistId : string) : M Z :=
  current <- redis_decr playlistId ;;
  if current <=? 0 then
    redis_delete_connections playlistId ;;;
    progress <- getProgress playlistId ;;
    match progress with
    | Some p =>
        if negb (status p =? "completed")%string
        then clearProgress playlistId ;;; ret current
        else ret current
    | None => ret current
    end
  else ret current.

(** *** The playlist fetch *)

(** The [entry] dict built for one item of a page. *)
Definition entry_of (item : YtItem) : Entry :=
  {| position := snippet_position item;
     score := ScoreInt 0;
     title := "";
     artist := "";
     date := match filterDate (snippet_title item) with
             | Some y => DateYear y
             | None => DateNone
             end;
     type := filterType (snippet_title item);
     mbid := "";
     ytname := snippet_title item;
     ytlink := ("https://www.youtube.com/watch?v="
                ++ contentDetails_videoId item)%string;
     channel := snippet_channelTitle item |}.

(** The [while True] loop of [playlistData]: one request per page, the
    entries of the page appended to [catalog]; any exception gives [None]. *)
Fixpoint playlistData_pages (playlistId : string) (answers : Listing)
    (catalog : list Entry) : M (option (list Entry)) :=
  outside (λ _, tt) [YouTube_list playlistId] ;;;
  match answers with
  | ListingRaises => ret None
  | LastPage items => ret (Some (catalog ++ map entry_of items))
  | NextPage items following =>
      playlistData_pages playlistId following (catalog ++ map entry_of items)
  end.

Definition playlistData (playlistId : string) : M (option (list Entry)) :=
  λ st, playlistData_pages playlistId (playlistItems W (ticks st) playlistId)
                           [] st.

(** *** The enrichment run *)

(** [item['ytname'] not in ['Deleted video', 'Private video']] *)
Definition removed_or_private (item : Entry) : bool :=
  (ytname item =? "Deleted video")%string
  || (ytname item =? "Private video")%string.

(** The dict passed to [item.update] for [bestMatch], applied to [item];
    [None] when building it raises ([float] on the score). *)
Definition update_from (bestMatch : Release) (item : Entry) : option Entry :=
  match match ext_score bestMatch with
        | Some s => float s
        | None => Some 0%Q
        end with
  | None => None
  | Some x =>
      Some {| position := position item;
              score := ScoreFloat x;
              title := default "" (release_title bestMatch);
              artist := artistFormat (default [] (artist_credit bestMatch));
              date := DateStr (default "" (release_date bestMatch));
              type := default "Unknown"
                        (default None (release_group_primary_type bestMatch));
              mbid := default "" (release_id bestMatch);
              ytname := ytname item;
              ytlink := ytlink item;
              channel := channel item |}
  end.

(** The part of the [try] block before [catalog[idx] = item]: the item as
    the block leaves it, or [None] when the block raised. *)
Definition enrich (item : Entry) : M (option Entry) :=
  if negb (removed_or_private item) then
    result <- outside (λ n, search_releases W n (ytname item))
                      [MusicBrainz_search (ytname item)] ;;
    match result with
    | SearchRaises => ret None
    | SearchReturns (Some (bestMatch :: _)) => ret (update_from bestMatch item)
    | SearchReturns _ => ret (Some item)
    end
  else ret (Some item).

(** [not progress or progress['activeConnections'] <= 0] *)
Definition abandoned (progress : option Progress) : bool :=
  match progress with
  | None => true
  | Some p => activeConnections p <=? 0
  end.

(** The end of the [try] block: [saveCatalog], [saveProgress] with the
    cursor past [idx], and the pause before the next lookup. *)
Definition persist (playlistId : string) (totalItems : Z) (idx : nat)
    (catalog : list Entry) : M unit :=
  saveCatalog playlistId catalog ;;;
  saveProgress playlistId (Z.of_nat idx + 1) totalItems "processing" ;;;
  outside (λ _, tt) [Sleep].

(** How the [for] loop ends: by its [return None], or by running out of
    items, with the catalog as the loop left it. *)
Inductive LoopExit :=
| ReturnNone
| Exhausted (catalog : list Entry).

(** [for idx, item in enumerate(catalog)], from index [idx] on.  [todo] is
    what the iterator has still to yield; [item] is the very dict stored at
    [catalog[idx]], so updating it and assigning it back is one list update. *)
Fixpoint for_each (playlistId : string) (totalItems : Z) (todo : list Entry)
    (idx : nat) (catalog : list Entry) : M LoopExit :=
  match todo with
  | [] => ret (Exhausted catalog)
  | item :: todo' =>
      progress <- getProgress playlistId ;;
      if abandoned progress then ret ReturnNone
      else
        enriched <- enrich item ;;
        match enriched with
        | None => for_each playlistId totalItems todo' (S idx) catalog
        | Some item' =>
            let catalog' := <[idx:=item']> catalog in
            persist playlistId totalItems idx catalog' ;;;
            for_each playlistId totalItems todo' (S idx) catalog'
        end
  end.

Definition processPlaylist (playlistId : string) : M (option (list Entry)) :=
  fetched <- playlistData playlistId ;;
  match fetched with
  | None | Some [] => clearProgress playlistId ;;; ret None
  | Some catalog =>
      let totalItems := Z.of_nat (List.length catalog) in
      saveProgress playlistId 0 totalItems "processing" ;;;
      exit <- for_each playlistId totalItems catalog 0 catalog ;;
      match exit with
      | ReturnNone => ret None
      | Exhausted catalog' =>
          saveProgress playlistId totalItems totalItems "completed" ;;;
          ret (Some catalog')
      end
  end.

(** *** Request handlers *)

(** The JSON answers of [startProcess], with their HTTP status. *)
Inductive Response :=
| Cached (playlistId : string) (data : list Entry)
| Started (playlistId : string)
| Error (error : string) (code : Z).

(** [existingCatalog and existingProgress and
     existingProgress['status'] == 'completed'] *)
Definition completed_cache (existingCatalog : option (list Entry))
    (existingProgress : option Progress) : option (list Entry) :=
  match existingCatalog, existingProgress with
  | Some (e :: c), Some p =>
      if (status p =? "completed")%string then Some (e :: c) else None
  | _, _ => None
  end.

(** [POST /api/process-playlist], for a request whose body [get_json]
    parses.  [Some playlistUrl] is a JSON object whose ['playlistUrl'] is a
    string; [None] is a body that parses to a false value ([null], [{}]) or
    to an object without that key.  A body that does not parse (an empty
    one, one that is not JSON, one of another content type) makes [get_json]
    raise, and a ['playlistUrl'] that is not a string makes [re.search]
    raise: both are answered 500 by the last [except], and neither is a
    value of [data]. *)
Definition startProcess (data : option string) : M Response :=
  match data with
  | None => ret (Error "Please provide a playlistUrl" 400)
  | Some playlistUrl =>
      match filterPlaylistId playlistUrl with
      | inl pe => ret (Error (message pe) (status_code pe))
      | inr playlistId =>
          existingCatalog <- getCatalog playlistId ;;
          existingProgress <- getProgress playlistId ;;
          match completed_cache existingCatalog existingProgress with
          | Some cached =>
              incrementConnections playlistId ;;;
              ret (Cached playlistId cached)
          | None =>
              clearProgress playlistId ;;;
              incrementConnections playlistId ;;;
              processPlaylist playlistId ;;;
              ret (Started playlistId)
          end
      end
  end.

(** [GET /api/playlist/<playlistId>/status]: the record, or the 404. *)
Definition getStatus (playlistId : string) : M (option Progress) :=
  getProgress playlistId.

(** [POST /api/playlist/<playlistId>/cancel] *)
Definition cancelProcess (playlistId : string) : M unit :=
  clearProgress playlistId.

End Server.

(** ** Artist credits of any shape *)

(** [artistFormat] above reads a list in which every element is a dict.
    Python does not promise that: an element of the list the function is
    given may be a plain string, and a string has no [get].  Here the
    elements are of either kind, and the function may raise. *)
Module ArtistCredit.

Inductive Item :=
| Dict (credit : Credit)
| Str (text : string).

(** [None] is the [AttributeError] that [credit.get] raises at the first
    element that is a string; an empty list takes the early [return '']. *)
Fixpoint artistFormat (data : list Item) : option string :=
  match data with
  | [] => Some ""
  | Dict credit :: rest =>
      match artistFormat rest with
      | Some joined =>
          Some (default "" (credit_name credit)
                ++ default "" (credit_joinphrase credit) ++ joined)%string
      | None => None
      end
  | Str _ :: _ => None
  end.

End ArtistCredit.

(** ** The stream endpoint *)

(** One server-sent event of [streamProcess]: the JSON after [data: ]. *)
Inductive Message :=
| ErrorMessage (error : string)
| CompletedMessage (data : list Entry)
| ProcessingMessage (current total : Z) (data : option (list Entry)).

Section Publisher.

Variable W : World.

(** The observer of the stream: whether it has closed the connection when
    the generator, at its n-th effect, yields a [processing] event.  A closed
    connection ends the generator at that [yield]. *)
Variable client_gone : nat → bool.

(** The [while True] loop of [generate], for at most [rounds] rounds.  The
    result is the events yielded so far and whether the loop has ended (by a
    [break] or at a [yield] the observer no longer takes); after [rounds]
    rounds without an end the loop is still running. *)
Fixpoint poll (playlistId : string) (rounds : nat)
    : M (list Message * bool) :=
  match rounds with
  | O => ret ([], false)
  | S rounds' =>
      progress <- getProgress W playlistId ;;
      catalog <- getCatalog W playlistId ;;
      match progress with
      | None => ret ([ErrorMessage "Playlist not found"], true)
      | Some p =>
          if activeConnections p <=? 0
          then ret ([ErrorMessage "No active connections"], true)
          else
            match (if (status p =? "completed")%string then catalog
                   else None) with
            | Some data => ret ([CompletedMessage data], true)
            | None =>
                if (status p =? "processing")%string then
                  let event :=
                    ProcessingMessage (currentItem p) (totalItems p) catalog in
                  gone <- outside client_gone [] ;;
                  if gone then ret ([event], true)
                  else
                    outside (λ _, tt) [Sleep] ;;;
                    later <- poll playlistId rounds' ;;
                    ret (event :: later.1, later.2)
                else
                  outside (λ _, tt) [Sleep] ;;;
                  poll playlistId rounds'
            end
      end
  end.

(** [GET /api/playlist/<playlistId>/stream]: attach, poll, and in the
    [finally] clause, once the loop has ended, detach. *)
Definition streamProcess (playlistId : string) (rounds : nat)
    : M (list Message * bool) :=
  incrementConnections W playlistId ;;;
  out <- poll playlistId rounds ;;
  if out.2 then decrementConnections W playlistId ;;; ret out
  else ret out.

End Publisher.

(** ** Scenarios the properties speak about *)

(** One viewer attaches and then detaches, nothing in between. *)
Definition attach_detach (W : World) (playlistId : string) : M Z :=
  incrementConnections W playlistId ;;; decrementConnections W playlistId.

(** Any sequence of attaches and detaches, on any identifiers. *)
Inductive ViewerOp :=
| Attach (playlistId : string)
| Detach (playlistId : string).

Definition viewer_op (W : World) (op : ViewerOp) : M Z :=
  match op with
  | Attach playlistId => incrementConnections W playlistId
  | Detach playlistId => decrementConnections W playlistId
  end.

Fixpoint viewer_ops (W : World) (ops : list ViewerOp) : M unit :=
  match ops with
  | [] => ret tt
  | op :: ops' => viewer_op W op ;;; viewer_ops W ops'
  end.

(** Redis after a detach that nobody interferes with. *)
Definition after_detach (id : string) (r : Redis) : Redis :=
  let n := viewers r id - 1 in
  let r1 := set_connections id n r in
  if n <=? 0 then
    match progress_key r !! id with
    | Some p =>
        if negb (status p =? "completed")%string
        then del_catalog id (del_connections id (del_progress id
               (del_connections id r1)))
        else del_connections id r1
    | None => del_connections id r1
    end
  else r1.

(** The viewer key of [id] is absent or holds a positive integer. *)
Definition viewers_ok (r : Redis) (id : string) : Prop :=
  match connections_key r !! id with
  | None => True
  | Some n => 0 < n
  end.

(** All three keys of [id] are absent. *)
Definition torn_down (r : Redis) (id : string) : Prop :=
  catalog_key r !! id = None ∧ progress_key r !! id = None
  ∧ connections_key r !! id = None.

(** *** Reading a listing *)

(** All items of a listing in page order, if no request raises. *)
Fixpoint listing_items (answers : Listing) : option (list YtItem) :=
  match answers with
  | ListingRaises => None
  | LastPage items => Some items
  | NextPage items following =>
      match listing_items following with
      | Some more => Some (items ++ more)
      | None => None
      end
  end.

(** The page requests a listing takes, the raising one included. *)
Fixpoint listing_requests (answers : Listing) : nat :=
  match answers with
  | ListingRaises | LastPage _ => 1
  | NextPage _ following => S (listing_requests following)
  end.

(** *** Reading the events of a run *)

(** The Progress Records written for [id], in the order of writing. *)
Definition progress_writes (id : string) (evs : list Event) : list Progress :=
  omap (λ e, match e with
             | SETEX_progress id' p => if decide (id' = id) then Some p else None
             | _ => None
             end) evs.

(** The Catalog snapshots written for [id], in the order of writing. *)
Definition catalog_writes (id : string) (evs : list Event)
    : list (list Entry) :=
  omap (λ e, match e with
             | SETEX_catalog id' c => if decide (id' = id) then Some c else None
             | _ => None
             end) evs.

(** The MusicBrainz queries of a request, in the order of asking. *)
Definition queries (evs : list Event) : list string :=
  omap (λ e, match e with MusicBrainz_search q => Some q | _ => None end) evs.

(** The INCR and the DECR commands of a request. *)
Definition is_incr (e : Event) : bool :=
  match e with INCR_connections _ _ => true | _ => false end.

Definition is_decr (e : Event) : bool :=
  match e with DECR_connections _ _ => true | _ => false end.

(** The fields of an entry that enrichment never touches. *)
Definition source_fields (e : Entry) : Z * string * string * string :=
  (position e, ytname e, ytlink e, channel e).

(** A write to the Catalog Cache or the Progress Tracker. *)
Definition is_write (e : Event) : bool :=
  match e with
  | SETEX_catalog _ _ | SETEX_progress _ _ => true
  | _ => false
  end.

(** A read of a Progress Record. *)
Definition is_check (e : Event) : bool :=
  match e with
  | GET_progress _ _ => true
  | _ => false
  end.

(** Neither a write nor an INCR nor a DECR. *)
Definition bystander (e : Event) : bool :=
  negb (is_write e) && negb (is_incr e) && negb (is_decr e).

(** The order in which a run may write two Progress Records, [p] before [q]:
    the cursor does not go back, and [completed] is not followed by
    [processing]. *)
Definition progress_le (p q : Progress) : Prop :=
  currentItem p ≤ currentItem q
  ∧ (status p = "completed" → status q ≠ "processing").

(** *** A concrete playlist *)

Module Scenario.

(** Three videos on two pages; the second one is private. *)
Definition song_a : YtItem := mkYtItem 0 "Song A" "Channel" "vidA".
Definition hidden : YtItem := mkYtItem 1 "Private video" "" "vidP".
Definition song_b : YtItem := mkYtItem 2 "Song B" "Channel" "vidB".

Definition listing : Listing := NextPage [song_a; hidden] (LastPage [song_b]).

(** MusicBrainz fails on the first title and knows the last one. *)
Definition release_b : Release :=
  mkRelease (Some "100") (Some "B") (Some [mkCredit (Some "X") (Some " & ");
                                           mkCredit (Some "Y") None])
            (Some "2001") (Some (Some "Album")) (Some "mbid-b").

Definition search (query : string) : SearchOutcome :=
  if (query =? "Song A")%string then SearchRaises
  else if (query =? "Song B")%string then SearchReturns (Some [release_b])
  else SearchReturns None.

(** [float] on the one score string of this scenario. *)
Definition float (s : string) : option PyFloat :=
  if (s =? "100")%string then Some 100%Q else None.

Definition filterDate (t : string) : option Z := None.
Definition filterType (t : string) : string := "Unknown".

(** Nobody else is active. *)
Definition calm : World :=
  mkWorld (λ _ r, r) (λ _, 0%Q) (λ _ _, listing) (λ _, search).

(** The only viewer leaves while the second entry is being handled: from
    the request's 12th effect on, the viewer's detach has torn down the keys
    of [PL1]. *)
Definition leaving : World :=
  mkWorld (λ n r, if (12 <=? n)%nat
                  then del_catalog "PL1" (del_connections "PL1"
                         (del_progress "PL1" r))
                  else r)
          (λ _, 0%Q) (λ _ _, listing) (λ _, search).

Definition url : string := "https://www.youtube.com/playlist?list=PL1".

(** An empty Redis; one with a viewer attached to [PL1]. *)
Definition fresh : State := mkState 0 no_keys.
Definition watched : State := mkState 0 (set_connections "PL1" 1 no_keys).

(** A run in progress that one viewer watches, one that nobody watches, and
    a completed one that nobody watches. *)
Definition in_progress : Progress := mkProgress "processing" 1 3 0%Q 1.
Definition finished : Progress := mkProgress "completed" 3 3 0%Q 1.

Definition watched_run : State :=
  mkState 0 (set_progress "PL1" in_progress
               (set_catalog "PL1" [entry_of filterDate filterType song_a]
                  (set_connections "PL1" 1 no_keys))).

Definition unwatched_run : State :=
  mkState 0 (set_progress "PL1" in_progress
               (set_catalog "PL1" [entry_of filterDate filterType song_a]
                  no_keys)).

Definition completed_run : State :=
  mkState 0 (set_progress "PL1" finished
               (set_catalog "PL1" [entry_of filterDate filterType song_a]
                  no_keys)).

(** The fetched entries. *)
Definition entry_a : Entry := entry_of filterDate filterType song_a.
Definition entry_hidden : Entry := entry_of filterDate filterType hidden.
Definition entry_b : Entry := entry_of filterDate filterType song_b.

Definition run (W : World) (st : State) :=
  processPlaylist W float filterDate filterType "PL1" st.

Definition start (W : World) (st : State) :=
  startProcess W float filterDate filterType (Some url) st.

(** YouTube fails on the second page. *)
Definition offline : World :=
  mkWorld (λ _ r, r) (λ _, 0%Q)
          (λ _ _, NextPage [song_a; hidden] ListingRaises) (λ _, search).

(** MusicBrainz is down, and the playlist has no private video. *)
Definition down : World :=
  mkWorld (λ _ r, r) (λ _, 0%Q) (λ _ _, LastPage [song_a; song_b])
          (λ _ _, SearchRaises).

(** A record written when no viewer was attached, and a completed record
    without snapshot. *)
Definition stale_run : State :=
  mkState 0 (set_progress "PL1" (mkProgress "processing" 0 3 0%Q 0) no_keys).


End Scenario.

(** Run a composite of commands by unfolding it, given that the world does
    not interfere ([quiet_law : ∀ n r, interfere W n r = r]). *)
Ltac run_with quiet_law :=
  unfold bind, command, outside, result_of, state_of, events_of; simpl;
  rewrite ?quiet_law; simpl.

(** * Properties *)

(** ** Identifier extraction *)

Module UrlFacts.
Import Url.

Lemma takeRun_run (id post : string) :
  is_run id = true → stops_run post = true →
  takeRun (id ++ post)%string = id.
Proof.
  induction id as [|c id IH]; simpl; intros Hrun Hstop.
  - destruct post as [|d post]; simpl in *; [done|].
    by destruct (idChar d).
  - apply andb_prop in Hrun as [Hc Hid]. rewrite Hc. f_equal. by apply IH.
Qed.

Lemma literal_app (p r : string) : literal p (p ++ r)%string = Some r.
Proof. induction p as [|a p IH]; simpl; [done|]. by rewrite Ascii.eqb_refl. Qed.

Lemma literal_Some (p s r : string) :
  literal p s = Some r → s = (p ++ r)%string.
Proof.
  revert s. induction p as [|a p IH]; intros s; simpl.
  - by intros [= ->].
  - destruct s as [|b s]; [done|].
    destruct (Ascii.eqb a b) eqn:E; [|done].
    apply Ascii.eqb_eq in E as ->. intros H. by rewrite (IH _ H).
Qed.

Lemma match_here_token (id post : string) :
  id ≠ EmptyString → is_run id = true → stops_run post = true →
  match_here ("list=" ++ id ++ post)%string = Some id.
Proof.
  intros Hne Hrun Hstop. unfold match_here.
  rewrite literal_app, takeRun_run by done. by destruct id.
Qed.

(** [match_here] finds a match only where a token starts. *)
Lemma match_here_None (s : string) : ¬ token_here s → match_here s = None.
Proof.
  intros Hno. unfold match_here.
  destruct (literal "list=" s) as [r|] eqn:E; [|done].
  apply literal_Some in E as ->.
  destruct r as [|c r]; [done|]. simpl.
  destruct (idChar c) eqn:Hc; [|done].
  exfalso. apply Hno. by exists c, r.
Qed.

(** Positions before the first token are skipped by [re_search]. *)
Lemma re_search_skip (pre s : string) :
  no_token_before (String.length pre) (pre ++ s)%string →
  re_search (pre ++ s)%string = re_search s.
Proof.
  induction pre as [|a pre IH]; intros Hno; [done|].
  change (String a pre ++ s)%string with (String a (pre ++ s)%string) in *.
  cbn [re_search]. rewrite match_here_None.
  - apply IH. intros x y Hxy Hlen.
    apply (Hno (String a x) y); simpl; [by rewrite Hxy | lia].
  - apply (Hno EmptyString); simpl; [done | lia].
Qed.

Lemma re_search_here (s g : string) :
  match_here s = Some g → re_search s = Some g.
Proof. intros H. destruct s; cbn [re_search]; by rewrite H. Qed.

Lemma re_search_no_token (url : string) :
  no_token url → re_search url = None.
Proof.
  induction url as [|a url IH]; intros Hno.
  - done.
  - cbn [re_search]. rewrite match_here_None by by apply (Hno EmptyString).
    apply IH. intros x y -> . by apply (Hno (String a x) y).
Qed.

Lemma token_hereb_false (s : string) : token_hereb s = false → ¬ token_here s.
Proof.
  unfold token_hereb. intros H (c & r & -> & Hc).
  rewrite literal_app in H. congruence.
Qed.

Lemma token_before_false (n : nat) (s : string) :
  token_before n s = false → no_token_before n s.
Proof.
  revert s. induction n as [|n IH]; intros s H a b Hs Hlen; [simpl in Hlen; lia|].
  cbn [token_before] in H. apply orb_false_elim in H as [Hhere Hrest].
  destruct a as [|x a].
  - change (s = b) in Hs. subst b. by apply token_hereb_false.
  - change (s = String x (a ++ b)%string) in Hs. subst s.
    apply (IH _ Hrest a b); [done | simpl in Hlen; lia].
Qed.

Lemma token_before_none (s : string) :
  token_before (S (String.length s)) s = false → no_token s.
Proof.
  intros H a b Hs. apply (token_before_false _ _ H a b Hs).
  subst s. clear H. induction a as [|x a IH]; [simpl; lia|].
  change (String x a ++ b)%string with (String x (a ++ b)%string).
  simpl in *. lia.
Qed.

End UrlFacts.

Example filterPlaylistId_watch :
  filterPlaylistId "https://www.youtube.com/watch?v=abc&list=PL_x-9&index=2"
  = inr "PL_x-9".
Proof. reflexivity. Qed.

(** The first token wins, and [playlist=] ends in [list=]. *)
Example filterPlaylistId_first :
  filterPlaylistId "https://youtu.be/x?playlist=one&list=two" = inr "one".
Proof. reflexivity. Qed.

Example filterPlaylistId_empty_id :
  filterPlaylistId "https://www.youtube.com/watch?v=abc&list="
  = inl (mkPlaylistError "Invalid YouTube playlist URL" 400).
Proof. reflexivity. Qed.

(** C9 (as amended).  Extraction returns the full run of letters, digits,
    [_] and [-] that follows the first place in the URL where the characters
    [list=] are followed by at least one such character, wherever that place
    is, also inside a longer name such as [playlist=]; a URL in which
    [list=] is nowhere followed by such a character raises the
    [PlaylistError] with status 400. *)
Theorem filterPlaylistId_token (url : string) :
  (∀ pre id post,
     url = (pre ++ "list=" ++ id ++ post)%string →
     id ≠ EmptyString →
     Url.is_run id = true →
     Url.stops_run post = true →
     Url.no_token_before (String.length pre) url →
     filterPlaylistId url = inr id)
  ∧ (Url.no_token url →
     filterPlaylistId url
     = inl (mkPlaylistError "Invalid YouTube playlist URL" 400)).
Proof.
  split.
  - intros pre id post -> Hne Hrun Hstop Hfirst. unfold filterPlaylistId.
    rewrite UrlFacts.re_search_skip by done.
    by rewrite (UrlFacts.re_search_here _ id)
      by by apply UrlFacts.match_here_token.
  - intros Hno. unfold filterPlaylistId.
    by rewrite UrlFacts.re_search_no_token.
Qed.

(** ** Running computations *)

Lemma bind_run {A B} (m : M A) (k : A → M B) st a st1 e1 b st2 e2 :
  m st = (a, st1, e1) → k a st1 = (b, st2, e2) →
  bind m k st = (b, st2, e1 ++ e2).
Proof.
  intros Hm Hk. unfold bind, result_of, state_of, events_of.
  rewrite Hm. simpl. by rewrite Hk.
Qed.

Lemma events_of_bind {A B} (m : M A) (k : A → M B) st :
  events_of (bind m k st)
  = events_of (m st) ++ events_of (k (result_of (m st)) (state_of (m st))).
Proof. done. Qed.

Lemma result_of_bind {A B} (m : M A) (k : A → M B) st :
  result_of (bind m k st)
  = result_of (k (result_of (m st)) (state_of (m st))).
Proof. done. Qed.

Lemma state_of_bind {A B} (m : M A) (k : A → M B) st :
  state_of (bind m k st)
  = state_of (k (result_of (m st)) (state_of (m st))).
Proof. done. Qed.

(** Where an element of a concatenation sits when the first part cannot
    hold it. *)
Lemma app_split_after {A} (P : A → bool) (l1 l2 pre : list A) x post :
  Forall (λ e, P e = false) l1 → P x = true →
  l1 ++ l2 = pre ++ x :: post →
  ∃ pre', pre = l1 ++ pre' ∧ l2 = pre' ++ x :: post.
Proof.
  intros Hl1 Hx. revert pre. induction Hl1 as [|e l1 He _ IH]; intros pre Heq.
  - by exists pre.
  - destruct pre as [|e' pre]; simpl in Heq.
    + injection Heq as -> _. congruence.
    + injection Heq as -> Heq. destruct (IH pre Heq) as (pre' & -> & ->).
      by exists pre'.
Qed.

Lemma app_split_before {A} (P : A → bool) (l1 l2 pre : list A) x post :
  Forall (λ e, P e = false) l2 → P x = true →
  l1 ++ l2 = pre ++ x :: post →
  ∃ post', l1 = pre ++ x :: post' ∧ post = post' ++ l2.
Proof.
  intros Hl2 Hx. revert pre. induction l1 as [|e l1 IH]; intros pre Heq.
  - simpl in Heq. subst l2. apply Forall_app in Hl2 as [_ Hl2].
    apply Forall_cons in Hl2 as [Hx' _]. congruence.
  - destruct pre as [|e' pre]; simpl in Heq.
    + injection Heq as -> <-. by exists l1.
    + injection Heq as -> Heq. destruct (IH pre Heq) as (post' & -> & ->).
      by exists post'.
Qed.

Lemma run_eta {A} (o : A * State * list Event) :
  o = (result_of o, state_of o, events_of o).
Proof. by destruct o as [[a st] ev]. Qed.

(** ** The shape of one run, whatever the world does *)

Section Run.

Variable W : World.
Variable float : string → option PyFloat.
Variable filterDate : string → option Z.
Variable filterType : string → string.
Variable pid : string.

Lemma getProgress_events st :
  events_of (getProgress W pid st)
  = [GET_progress pid (result_of (getProgress W pid st))].
Proof. done. Qed.

Lemma getProgress_redis st :
  redis (state_of (getProgress W pid st)) = interfere W (ticks st) (redis st).
Proof. done. Qed.

Lemma saveProgress_events cur tot sta st :
  ∃ reply now,
    events_of (saveProgress W pid cur tot sta st)
    = [GET_connections pid reply;
       SETEX_progress pid (mkProgress sta cur tot now (default 0 reply))].
Proof. by eexists _, _. Qed.

Lemma enrich_events item st :
  events_of (enrich W float item st)
  = if removed_or_private item then []
    else [MusicBrainz_search (ytname item)].
Proof.
  unfold enrich. destruct (removed_or_private item); simpl; [done|].
  unfold bind, outside, events_of, result_of. simpl.
  destruct (search_releases W (ticks st) (ytname item)) as [|[[|b l]|]]; done.
Qed.

Lemma enrich_skips item st :
  removed_or_private item = true →
  result_of (enrich W float item st) = Some item.
Proof. unfold enrich. by intros ->. Qed.

(** The three ways through one iteration of the loop. *)

Lemma for_each_abandoned tot item todo idx cat st :
  abandoned (result_of (getProgress W pid st)) = true →
  for_each W float pid tot (item :: todo) idx cat st
  = (ReturnNone, state_of (getProgress W pid st),
     [GET_progress pid (result_of (getProgress W pid st))]).
Proof.
  intros Hab. rewrite (run_eta (for_each _ _ _ _ _ _ _ _)). cbn [for_each].
  rewrite result_of_bind, state_of_bind, events_of_bind, Hab.
  by rewrite getProgress_events.
Qed.

Lemma for_each_raised tot item todo idx cat st :
  let st1 := state_of (getProgress W pid st) in
  abandoned (result_of (getProgress W pid st)) = false →
  result_of (enrich W float item st1) = None →
  let o := for_each W float pid tot todo (S idx) cat
             (state_of (enrich W float item st1)) in
  for_each W float pid tot (item :: todo) idx cat st
  = (result_of o, state_of o,
     GET_progress pid (result_of (getProgress W pid st))
     :: events_of (enrich W float item st1) ++ events_of o).
Proof.
  intros st1 Hab Hraise o.
  rewrite (run_eta (for_each _ _ _ _ (_ :: _) _ _ _)). cbn [for_each].
  rewrite result_of_bind, state_of_bind, events_of_bind, Hab.
  rewrite result_of_bind, state_of_bind, events_of_bind.
  fold st1. rewrite Hraise. by rewrite getProgress_events.
Qed.

Lemma persist_events tot idx cat st :
  ∃ reply now,
    events_of (persist W pid tot idx cat st)
    = [SETEX_catalog pid cat;
       GET_connections pid reply;
       SETEX_progress pid
         (mkProgress "processing" (Z.of_nat idx + 1) tot now (default 0 reply));
       Sleep].
Proof. by eexists _, _. Qed.

Lemma for_each_saved_at tot item item' todo idx cat st :
  let st1 := state_of (getProgress W pid st) in
  abandoned (result_of (getProgress W pid st)) = false →
  result_of (enrich W float item st1) = Some item' →
  let st2 := state_of (enrich W float item st1) in
  let saved := persist W pid tot idx (<[idx:=item']> cat) st2 in
  let o := for_each W float pid tot todo (S idx) (<[idx:=item']> cat)
             (state_of saved) in
  for_each W float pid tot (item :: todo) idx cat st
  = (result_of o, state_of o,
     GET_progress pid (result_of (getProgress W pid st))
     :: events_of (enrich W float item st1) ++ events_of saved
     ++ events_of o).
Proof.
  intros st1 Hab Hsome st2 saved o.
  rewrite (run_eta (for_each _ _ _ _ (_ :: _) _ _ _)). cbn [for_each].
  rewrite result_of_bind, state_of_bind, events_of_bind, Hab.
  rewrite result_of_bind, state_of_bind, events_of_bind.
  fold st1. rewrite Hsome, getProgress_events.
  by rewrite result_of_bind, state_of_bind, events_of_bind.
Qed.

Lemma for_each_saved tot item item' todo idx cat st :
  let st1 := state_of (getProgress W pid st) in
  abandoned (result_of (getProgress W pid st)) = false →
  result_of (enrich W float item st1) = Some item' →
  ∃ st3 reply now,
    let o := for_each W float pid tot todo (S idx) (<[idx:=item']> cat) st3 in
    for_each W float pid tot (item :: todo) idx cat st
    = (result_of o, state_of o,
       GET_progress pid (result_of (getProgress W pid st))
       :: events_of (enrich W float item st1)
       ++ [SETEX_catalog pid (<[idx:=item']> cat);
           GET_connections pid reply;
           SETEX_progress pid
             (mkProgress "processing" (Z.of_nat idx + 1) tot now
                         (default 0 reply));
           Sleep]
       ++ events_of o).
Proof.
  intros st1 Hab Hsome. subst st1.
  pose proof (for_each_saved_at tot item item' todo idx cat st Hab Hsome)
    as Hrun. cbv zeta in Hrun.
  destruct (persist_events tot idx (<[idx:=item']> cat)
              (state_of (enrich W float item (state_of (getProgress W pid st)))))
    as (reply & now & Hev).
  eexists _, reply, now. cbv zeta. rewrite Hrun. by rewrite Hev.
Qed.

(** *** The whole run *)

Lemma playlistData_pages_events answers acc st :
  Forall (λ e, e = YouTube_list pid)
         (events_of (playlistData_pages filterDate filterType pid answers acc st)).
Proof.
  revert acc st. induction answers as [|items|items following IH];
    intros acc st; cbn [playlistData_pages]; rewrite events_of_bind.
  - by repeat constructor.
  - by repeat constructor.
  - constructor; [done|]. apply IH.
Qed.

Lemma playlistData_events st :
  Forall (λ e, e = YouTube_list pid)
         (events_of (playlistData W filterDate filterType pid st)).
Proof. apply playlistData_pages_events. Qed.

Lemma processPlaylist_failed st :
  match result_of (playlistData W filterDate filterType pid st) with
  | None | Some [] => True
  | Some _ => False
  end →
  processPlaylist W float filterDate filterType pid st
  = (None,
     state_of (clearProgress W pid
                 (state_of (playlistData W filterDate filterType pid st))),
     events_of (playlistData W filterDate filterType pid st)
     ++ [DEL_progress pid; DEL_connections pid; DEL_catalog pid]).
Proof.
  intros Hfail. rewrite (run_eta (processPlaylist _ _ _ _ _ _)).
  unfold processPlaylist.
  rewrite result_of_bind, state_of_bind, events_of_bind.
  destruct (result_of (playlistData W filterDate filterType pid st))
    as [[|e c]|]; done.
Qed.

(** The run after a fetch that gave a non-empty catalog. *)
Lemma processPlaylist_unfold st cat :
  result_of (playlistData W filterDate filterType pid st) = Some cat →
  cat ≠ [] →
  let tot := Z.of_nat (List.length cat) in
  let st1 := state_of (saveProgress W pid 0 tot "processing"
               (state_of (playlistData W filterDate filterType pid st))) in
  let o := for_each W float pid tot cat 0 cat st1 in
  let o' := match result_of o with
            | ReturnNone => ret None (state_of o)
            | Exhausted c =>
                (saveProgress W pid tot tot "completed" ;;; ret (Some c))
                  (state_of o)
            end in
  processPlaylist W float filterDate filterType pid st
  = (result_of o', state_of o',
     events_of (playlistData W filterDate filterType pid st)
     ++ events_of (saveProgress W pid 0 tot "processing"
          (state_of (playlistData W filterDate filterType pid st)))
     ++ events_of o ++ events_of o').
Proof.
  intros Hfetch Hne tot st1.
  rewrite (run_eta (processPlaylist _ _ _ _ _ _)). unfold processPlaylist.
  rewrite !result_of_bind, !state_of_bind, !events_of_bind, Hfetch.
  destruct cat as [|e0 cat0]; [done|]. fold tot.
  rewrite !result_of_bind, !state_of_bind, !events_of_bind. fold st1.
  cbv zeta.
  by destruct (result_of (for_each W float pid tot (e0 :: cat0) 0
                            (e0 :: cat0) st1)).
Qed.

Lemma processPlaylist_fetched st cat :
  result_of (playlistData W filterDate filterType pid st) = Some cat →
  cat ≠ [] →
  let tot := Z.of_nat (List.length cat) in
  ∃ st1 reply now tail,
    let o := for_each W float pid tot cat 0 cat st1 in
    events_of (processPlaylist W float filterDate filterType pid st)
    = events_of (playlistData W filterDate filterType pid st)
      ++ [GET_connections pid reply;
          SETEX_progress pid
            (mkProgress "processing" 0 tot now (default 0 reply))]
      ++ events_of o ++ tail
    ∧ ((result_of o = ReturnNone ∧ tail = []
        ∧ processPlaylist W float filterDate filterType pid st
          = (None, state_of o,
             events_of (processPlaylist W float filterDate filterType pid st)))
       ∨ (∃ c reply' now',
            result_of o = Exhausted c
            ∧ tail = [GET_connections pid reply';
                      SETEX_progress pid
                        (mkProgress "completed" tot tot now'
                                    (default 0 reply'))]
            ∧ result_of (processPlaylist W float filterDate filterType pid st)
              = Some c)).
Proof.
  intros Hfetch Hne tot.
  set (st1 := state_of (saveProgress W pid 0 tot "processing"
                (state_of (playlistData W filterDate filterType pid st)))).
  pose proof (processPlaylist_unfold st cat Hfetch Hne) as Hrun.
  cbv zeta in Hrun. fold tot in Hrun. fold st1 in Hrun.
  destruct (result_of (for_each W float pid tot cat 0 cat st1)) as [|c] eqn:Ho.
  - exists st1. eexists _, _, []. cbv zeta. rewrite Ho.
    split; [by rewrite Hrun|]. left. split; [done|]. split; [done|].
    rewrite Hrun at 1. f_equal. by rewrite Hrun.
  - exists st1. eexists _, _, _. cbv zeta. rewrite Ho.
    split; [by rewrite Hrun|]. right. eexists c, _, _.
    split; [done|]. split; [reflexivity|]. by rewrite Hrun.
Qed.

(** The web APIs leave Redis alone. *)
Lemma enrich_redis item st :
  redis (state_of (enrich W float item st)) = redis st.
Proof.
  unfold enrich. destruct (removed_or_private item); simpl; [done|].
  rewrite state_of_bind. unfold outside at 1 2. simpl.
  by destruct (search_releases W (ticks st) (ytname item)) as [|[[|b l]|]].
Qed.

Lemma playlistData_pages_redis answers acc st :
  redis (state_of (playlistData_pages filterDate filterType pid answers acc st))
  = redis st.
Proof.
  revert acc st. induction answers as [|items|items following IH];
    intros acc st; cbn [playlistData_pages]; rewrite state_of_bind;
    [done|done|]. by rewrite IH.
Qed.

Lemma playlistData_redis st :
  redis (state_of (playlistData W filterDate filterType pid st)) = redis st.
Proof. apply playlistData_pages_redis. Qed.

(** *** The Progress Records of one run *)

Lemma progress_writes_app l1 l2 :
  progress_writes pid (l1 ++ l2)
  = progress_writes pid l1 ++ progress_writes pid l2.
Proof. apply omap_app. Qed.

Lemma progress_writes_youtube evs :
  Forall (λ e, e = YouTube_list pid) evs → progress_writes pid evs = [].
Proof. induction 1 as [|e evs -> _ IH]; [done|]. apply IH. Qed.

Lemma progress_writes_enrich item st :
  progress_writes pid (events_of (enrich W float item st)) = [].
Proof. rewrite enrich_events. by destruct (removed_or_private item). Qed.

Lemma progress_writes_save reply p evs :
  progress_writes pid (GET_connections pid reply :: SETEX_progress pid p :: evs)
  = p :: progress_writes pid evs.
Proof. unfold progress_writes. simpl. by rewrite decide_True. Qed.

(** The loop writes cursors [idx+1], [idx+2], ... in increasing order, all of
    them [processing] and none beyond the last index. *)
Lemma for_each_writes tot todo idx cat st :
  let ws := progress_writes pid
              (events_of (for_each W float pid tot todo idx cat st)) in
  StronglySorted progress_le ws
  ∧ Forall (λ p, status p = "processing"
                 ∧ Z.of_nat idx + 1 ≤ currentItem p
                   ≤ Z.of_nat idx + Z.of_nat (List.length todo)) ws.
Proof.
  revert idx cat st. induction todo as [|item todo IH]; intros idx cat st.
  { split; constructor. }
  cbv zeta.
  destruct (abandoned (result_of (getProgress W pid st))) eqn:Hab.
  { rewrite for_each_abandoned by done. split; constructor. }
  destruct (result_of (enrich W float item (state_of (getProgress W pid st))))
    as [item'|] eqn:Hen.
  - destruct (for_each_saved tot item item' todo idx cat st Hab Hen)
      as (st3 & reply & now & ->).
    cbn [events_of snd].
    change (GET_progress ?a ?b :: ?l) with ([GET_progress a b] ++ l).
    rewrite !progress_writes_app, progress_writes_enrich.
    cbn [app].
    change (progress_writes pid [GET_progress _ _]) with (@nil Progress).
    cbn [app].
    change (SETEX_catalog ?a ?b :: ?l) with ([SETEX_catalog a b] ++ l).
    rewrite progress_writes_app.
    change (progress_writes pid [SETEX_catalog _ _]) with (@nil Progress).
    cbn [app]. rewrite progress_writes_save.
    change (Sleep :: ?l) with ([Sleep] ++ l). rewrite progress_writes_app.
    change (progress_writes pid [Sleep]) with (@nil Progress). cbn [app].
    destruct (IH (S idx) (<[idx:=item']> cat) st3) as [Hs Hf].
    split.
    + constructor; [done|]. eapply Forall_impl; [exact Hf|].
      intros q (Hq & Hlo & _). split; simpl; [lia | done].
    + constructor.
      * simpl. split; [done|]. lia.
      * eapply Forall_impl; [exact Hf|]. simpl. intros q (Hq & Hlo & Hhi).
        split; [done|]. lia.
  - rewrite for_each_raised by done.
    cbn [events_of snd].
    change (GET_progress ?a ?b :: ?l) with ([GET_progress a b] ++ l).
    rewrite !progress_writes_app, progress_writes_enrich.
    change (progress_writes pid [GET_progress _ _]) with (@nil Progress).
    cbn [app].
    destruct (IH (S idx) cat (state_of (enrich W float item
                (state_of (getProgress W pid st))))) as [Hs Hf].
    split; [done|]. eapply Forall_impl; [exact Hf|].
    simpl. intros q (Hq & Hlo & Hhi). split; [done|]. lia.
Qed.

(** C6.  The Progress Records one run writes for its identifier are ordered:
    taken in the order of writing, any earlier record has a [currentItem] not
    above that of any later one, and no record written after a [completed]
    one is [processing]. *)
Theorem progress_writes_ordered st :
  StronglySorted progress_le
    (progress_writes pid
       (events_of (processPlaylist W float filterDate filterType pid st))).
Proof.
  pose proof (playlistData_events st) as Hyt.
  destruct (result_of (playlistData W filterDate filterType pid st))
    as [cat|] eqn:Hfetch.
  2: { rewrite processPlaylist_failed by by rewrite Hfetch.
       cbn [events_of snd]. rewrite progress_writes_app.
       rewrite progress_writes_youtube by done. constructor. }
  destruct cat as [|e0 cat0].
  { rewrite processPlaylist_failed by by rewrite Hfetch.
    cbn [events_of snd]. rewrite progress_writes_app.
    rewrite progress_writes_youtube by done. constructor. }
  destruct (processPlaylist_fetched st (e0 :: cat0) Hfetch)
    as (st1 & reply & now & tail & Hev & Htail); [done|].
  cbv zeta in Hev, Htail. rewrite Hev.
  set (tot := Z.of_nat (List.length (e0 :: cat0))) in *.
  destruct (for_each_writes tot (e0 :: cat0) 0 (e0 :: cat0) st1) as [Hs Hf].
  rewrite progress_writes_app, progress_writes_youtube by done.
  cbn [app]. rewrite progress_writes_save, progress_writes_app.
  constructor.
  - apply StronglySorted_app. split; [|split]; [|done|].
    + intros p q Hp Hq.
      rewrite Forall_forall in Hf. destruct (Hf p Hp) as (Hst & _ & Hhi).
      split; [|by rewrite Hst].
      destruct Htail as [(_ & -> & _)|(c & r' & n' & _ & -> & _)].
      * by apply elem_of_nil in Hq.
      * rewrite progress_writes_save in Hq.
        apply list_elem_of_singleton in Hq as ->. simpl. fold tot in Hhi. lia.
    + destruct Htail as [(_ & -> & _)|(c & r' & n' & _ & -> & _)].
      * constructor.
      * rewrite progress_writes_save. repeat constructor.
  - apply Forall_app. split.
    + eapply Forall_impl; [exact Hf|]. intros q (Hq & Hlo & _).
      split; simpl; [lia | done].
    + destruct Htail as [(_ & -> & _)|(c & r' & n' & _ & -> & _)].
      * constructor.
      * rewrite progress_writes_save. repeat constructor; simpl; [lia|done].
Qed.

(** *** The cancellation check *)

Lemma enrich_no_check item st :
  Forall (λ e, is_check e = false) (events_of (enrich W float item st)).
Proof.
  rewrite enrich_events. destruct (removed_or_private item); by repeat constructor.
Qed.

(** A check that finds the run abandoned is the last thing the loop does. *)
Lemma for_each_stops tot todo idx cat st pre p post :
  events_of (for_each W float pid tot todo idx cat st)
  = pre ++ GET_progress pid p :: post →
  abandoned p = true →
  post = [] ∧ result_of (for_each W float pid tot todo idx cat st) = ReturnNone.
Proof.
  revert idx cat st pre. induction todo as [|item todo IH];
    intros idx cat st pre Hev Hp.
  { by destruct pre. }
  destruct (abandoned (result_of (getProgress W pid st))) eqn:Hab.
  { rewrite for_each_abandoned in * by done. cbn [events_of snd] in Hev.
    destruct pre as [|e [|e' pre]]; [|done|done].
    injection Hev as _ <-. done. }
  destruct (result_of (enrich W float item (state_of (getProgress W pid st))))
    as [item'|] eqn:Hen.
  - destruct (for_each_saved tot item item' todo idx cat st Hab Hen)
      as (st3 & reply & now & Hrun).
    cbv zeta in Hrun. rewrite Hrun in *. cbn [events_of result_of snd fst] in *.
    destruct pre as [|e pre]; simpl in Hev.
    { injection Hev as <- _. congruence. }
    injection Hev as _ Hev.
    apply (app_split_after is_check) in Hev
      as (pre1 & -> & Hev); [|apply enrich_no_check|done].
    apply (app_split_after is_check [_; _; _; _]) in Hev
      as (pre2 & -> & Hev); [|by repeat constructor|done].
    by apply IH in Hev.
  - rewrite for_each_raised in * by done.
    cbn [events_of result_of snd fst] in *.
    destruct pre as [|e pre]; simpl in Hev.
    { injection Hev as <- _. congruence. }
    injection Hev as _ Hev.
    apply (app_split_after is_check) in Hev
      as (pre1 & -> & Hev); [|apply enrich_no_check|done].
    by apply IH in Hev.
Qed.

(** C7.  Every iteration of the loop starts by re-reading the Progress
    Record; when the record is absent or its [activeConnections] is not
    positive the loop returns at once, having issued nothing but that read,
    so Redis is as the other requests left it; and in the events of a whole
    run, a read that finds the run abandoned is the last event: no write to
    the Catalog Cache or the Progress Tracker follows, and the run yields
    [None]. *)
Theorem abandoned_run_stops :
  (∀ tot item todo idx cat st,
     ∃ rest,
       events_of (for_each W float pid tot (item :: todo) idx cat st)
       = GET_progress pid
           (progress_key (interfere W (ticks st) (redis st)) !! pid) :: rest)
  ∧ (∀ tot item todo idx cat st,
       abandoned (progress_key (interfere W (ticks st) (redis st)) !! pid)
       = true →
       let o := for_each W float pid tot (item :: todo) idx cat st in
       result_of o = ReturnNone
       ∧ events_of o
         = [GET_progress pid
              (progress_key (interfere W (ticks st) (redis st)) !! pid)]
       ∧ redis (state_of o) = interfere W (ticks st) (redis st))
  ∧ (∀ st pre p post,
       events_of (processPlaylist W float filterDate filterType pid st)
       = pre ++ GET_progress pid p :: post →
       abandoned p = true →
       post = []
       ∧ result_of (processPlaylist W float filterDate filterType pid st)
         = None).
Proof.
  split; [|split].
  - intros tot item todo idx cat st.
    rewrite (run_eta (for_each _ _ _ _ (_ :: _) _ _ _)). cbn [for_each].
    rewrite events_of_bind. by eexists.
  - intros tot item todo idx cat st Hab o. subst o.
    by rewrite for_each_abandoned.
  - intros st pre p post Hev Hp.
    pose proof (playlistData_events st) as Hyt.
    assert (Hyt' : Forall (λ e, is_check e = false)
              (events_of (playlistData W filterDate filterType pid st))).
    { eapply Forall_impl; [exact Hyt|]. by intros e ->. }
    destruct (result_of (playlistData W filterDate filterType pid st))
      as [[|e0 cat0]|] eqn:Hfetch.
    1, 3: rewrite processPlaylist_failed in Hev by (by rewrite Hfetch);
      cbn [events_of snd] in Hev;
      apply (app_split_after is_check) in Hev as (pre1 & -> & Hev);
        [|done|done];
      by destruct pre1 as [|? [|? [|? [|? ?]]]].
    destruct (processPlaylist_fetched st (e0 :: cat0) Hfetch)
      as (st1 & reply & now & tail & Hev' & Htail); [done|].
    cbv zeta in Hev', Htail. rewrite Hev' in Hev.
    apply (app_split_after is_check) in Hev as (pre1 & -> & Hev);
      [|done|done].
    apply (app_split_after is_check [_; _]) in Hev as (pre2 & -> & Hev);
      [|by repeat constructor|done].
    destruct Htail as [(Hret & -> & Hrun)|(c & r' & n' & Hex & -> & Hres)].
    + rewrite app_nil_r in Hev. apply for_each_stops in Hev as [-> _]; [|done].
      split; [done|]. by rewrite Hrun.
    + apply (app_split_before is_check) in Hev as (post' & Hev & ->);
        [|by repeat constructor|done].
      apply for_each_stops in Hev as [_ Hret]; [|done]. congruence.
Qed.

(** *** One entry *)

(** The three ways an entry gets through the [try] block without raising. *)
Lemma enrich_cases item item' st :
  (removed_or_private item = true ∧ item' = item)
  ∨ (removed_or_private item = false
     ∧ ∃ release_list,
         search_releases W (ticks st) (ytname item)
         = SearchReturns release_list
         ∧ match release_list with
           | Some (bestMatch :: _) =>
               update_from float bestMatch item = Some item'
           | _ => item' = item
           end) →
  result_of (enrich W float item st) = Some item'.
Proof.
  unfold enrich. intros [[-> ->]|(-> & rl & Hrl & Hitem)]; [done|].
  simpl. rewrite result_of_bind. unfold outside at 1 2. simpl.
  rewrite Hrl. destruct rl as [[|b l]|]; by subst.
Qed.

(** C2 (as amended).  In every iteration that passes the cancellation check
    and whose entry is skipped as removed or private, finds no match, or is
    enriched from a match, the run writes the full catalog snapshot and then
    a Progress Record with [currentItem = idx + 1], both before the next
    iteration starts. *)
Theorem entry_persisted tot item item' todo idx cat st :
  let st1 := state_of (getProgress W pid st) in
  abandoned (result_of (getProgress W pid st)) = false →
  (removed_or_private item = true ∧ item' = item)
  ∨ (removed_or_private item = false
     ∧ ∃ release_list,
         search_releases W (ticks st1) (ytname item)
         = SearchReturns release_list
         ∧ match release_list with
           | Some (bestMatch :: _) =>
               update_from float bestMatch item = Some item'
           | _ => item' = item
           end) →
  ∃ st3 reply now,
    let snapshot := <[idx:=item']> cat in
    let next := for_each W float pid tot todo (S idx) snapshot st3 in
    List.length snapshot = List.length cat
    ∧ for_each W float pid tot (item :: todo) idx cat st
      = (result_of next, state_of next,
         GET_progress pid (result_of (getProgress W pid st))
         :: events_of (enrich W float item st1)
         ++ [SETEX_catalog pid snapshot;
             GET_connections pid reply;
             SETEX_progress pid
               (mkProgress "processing" (Z.of_nat idx + 1) tot now
                           (default 0 reply));
             Sleep]
         ++ events_of next).
Proof.
  intros st1 Hab Hcase. apply enrich_cases in Hcase.
  destruct (for_each_saved tot item item' todo idx cat st Hab Hcase)
    as (st3 & reply & now & Hrun).
  exists st3, reply, now. cbv zeta. split; [apply length_insert | exact Hrun].
Qed.

(** Every snapshot the loop saves is a full one: as long as the catalog the
    loop started with. *)
Lemma for_each_snapshots tot todo idx cat st c :
  SETEX_catalog pid c ∈ events_of (for_each W float pid tot todo idx cat st) →
  List.length c = List.length cat.
Proof.
  revert idx cat st. induction todo as [|item todo IH]; intros idx cat st Hc.
  { by apply elem_of_nil in Hc. }
  assert (Hen : SETEX_catalog pid c
                ∉ events_of (enrich W float item
                               (state_of (getProgress W pid st)))).
  { rewrite enrich_events. destruct (removed_or_private item).
    - apply not_elem_of_nil.
    - by intros ?%list_elem_of_singleton. }
  destruct (abandoned (result_of (getProgress W pid st))) eqn:Hab.
  { rewrite for_each_abandoned in Hc by done. cbn [events_of snd] in Hc.
    by apply list_elem_of_singleton in Hc. }
  destruct (result_of (enrich W float item (state_of (getProgress W pid st))))
    as [item'|] eqn:Hr.
  - destruct (for_each_saved tot item item' todo idx cat st Hab Hr)
      as (st3 & reply & now & Hrun).
    cbv zeta in Hrun. rewrite Hrun in Hc. cbn [events_of snd] in Hc.
    apply elem_of_cons in Hc as [?|Hc]; [done|].
    apply elem_of_app in Hc as [Hc|Hc]; [done|].
    apply elem_of_app in Hc as [Hc|Hc].
    + apply elem_of_cons in Hc as [[= ->]|Hc]; [apply length_insert|].
      repeat (apply elem_of_cons in Hc as [?|Hc]; [done|]).
      by apply elem_of_nil in Hc.
    + apply IH in Hc. by rewrite length_insert in Hc.
  - rewrite for_each_raised in Hc by done. cbn [events_of snd] in Hc.
    apply elem_of_cons in Hc as [?|Hc]; [done|].
    apply elem_of_app in Hc as [Hc|Hc]; [done | by eapply IH].
Qed.

(** A run never stores an empty snapshot. *)
Lemma saved_snapshots_nonempty st c :
  SETEX_catalog pid c
  ∈ events_of (processPlaylist W float filterDate filterType pid st) →
  c ≠ [].
Proof.
  pose proof (playlistData_events st) as Hyt. rewrite Forall_forall in Hyt.
  destruct (result_of (playlistData W filterDate filterType pid st))
    as [[|e0 cat0]|] eqn:Hfetch.
  1, 3: rewrite processPlaylist_failed by (by rewrite Hfetch);
    cbn [events_of snd]; intros [Hc|Hc]%elem_of_app;
    [ by apply Hyt in Hc
    | repeat (apply elem_of_cons in Hc as [?|Hc]; [done|]);
      by apply elem_of_nil in Hc ].
  destruct (processPlaylist_fetched st (e0 :: cat0) Hfetch)
    as (st1 & reply & now & tail & Hev & Htail); [done|].
  cbv zeta in Hev, Htail. rewrite Hev. intros Hc.
  apply elem_of_app in Hc as [Hc|Hc]; [by apply Hyt in Hc|].
  apply elem_of_app in Hc as [Hc|Hc].
  { repeat (apply elem_of_cons in Hc as [?|Hc]; [done|]).
    by apply elem_of_nil in Hc. }
  apply elem_of_app in Hc as [Hc|Hc].
  - apply for_each_snapshots in Hc. by destruct c.
  - destruct Htail as [(_ & -> & _)|(c' & r' & n' & _ & -> & _)].
    + by apply elem_of_nil in Hc.
    + repeat (apply elem_of_cons in Hc as [?|Hc]; [done|]).
      by apply elem_of_nil in Hc.
Qed.

(** *** Removed and private videos *)

Lemma removed_or_private_ytname item :
  removed_or_private item = false →
  ytname item ≠ "Deleted video" ∧ ytname item ≠ "Private video".
Proof.
  unfold removed_or_private. intros H.
  apply orb_false_elim in H as [H1 H2].
  split; intros Heq; rewrite Heq in *; discriminate.
Qed.

Lemma for_each_lookups tot todo idx cat st q :
  MusicBrainz_search q ∈ events_of (for_each W float pid tot todo idx cat st) →
  q ≠ "Deleted video" ∧ q ≠ "Private video".
Proof.
  revert idx cat st. induction todo as [|item todo IH]; intros idx cat st Hq.
  { by apply elem_of_nil in Hq. }
  assert (Hen : MusicBrainz_search q
                ∈ events_of (enrich W float item
                               (state_of (getProgress W pid st))) →
                q ≠ "Deleted video" ∧ q ≠ "Private video").
  { rewrite enrich_events.
    destruct (removed_or_private item) eqn:Hrp; [by intros ?%elem_of_nil|].
    intros [= ->]%list_elem_of_singleton.
    by apply removed_or_private_ytname. }
  destruct (abandoned (result_of (getProgress W pid st))) eqn:Hab.
  { rewrite for_each_abandoned in Hq by done. cbn [events_of snd] in Hq.
    by apply list_elem_of_singleton in Hq. }
  destruct (result_of (enrich W float item (state_of (getProgress W pid st))))
    as [item'|] eqn:Hr.
  - destruct (for_each_saved tot item item' todo idx cat st Hab Hr)
      as (st3 & reply & now & Hrun).
    cbv zeta in Hrun. rewrite Hrun in Hq. cbn [events_of snd] in Hq.
    apply elem_of_cons in Hq as [?|Hq]; [done|].
    apply elem_of_app in Hq as [Hq|Hq]; [by apply Hen|].
    apply elem_of_app in Hq as [Hq|Hq]; [|by eapply IH].
    repeat (apply elem_of_cons in Hq as [?|Hq]; [done|]).
    by apply elem_of_nil in Hq.
  - rewrite for_each_raised in Hq by done. cbn [events_of snd] in Hq.
    apply elem_of_cons in Hq as [?|Hq]; [done|].
    apply elem_of_app in Hq as [Hq|Hq]; [by apply Hen | by eapply IH].
Qed.

(** Entry [i] of the fetched playlist is removed or private: every snapshot
    the loop saves, and the catalog it ends with, hold that entry unchanged,
    and a loop that has the entry still before it and runs to the end writes
    the cursor [i + 1]. *)
Lemma for_each_keeps tot i e todo idx cat st :
  removed_or_private e = true →
  cat !! i = Some e →
  ((idx ≤ i)%nat → todo !! (i - idx)%nat = Some e) →
  let o := for_each W float pid tot todo idx cat st in
  (∀ c, SETEX_catalog pid c ∈ events_of o → c !! i = Some e)
  ∧ (∀ final, result_of o = Exhausted final →
       final !! i = Some e
       ∧ ((idx ≤ i)%nat →
          ∃ p, SETEX_progress pid p ∈ events_of o
               ∧ currentItem p = Z.of_nat i + 1 ∧ status p = "processing")).
Proof.
  intros Hrp. revert idx cat st.
  induction todo as [|item todo IH]; intros idx cat st Hcat Htodo; cbv zeta.
  { split; [by intros c ?%elem_of_nil|]. intros final [= <-].
    split; [done|]. intros Hle. by specialize (Htodo Hle). }
  assert (Hnext : (S idx ≤ i)%nat → todo !! (i - S idx)%nat = Some e).
  { intros Hle. specialize (Htodo ltac:(lia)).
    by replace (i - idx)%nat with (S (i - S idx)) in Htodo by lia. }
  destruct (abandoned (result_of (getProgress W pid st))) eqn:Hab.
  { rewrite for_each_abandoned by done. cbn [events_of result_of snd fst].
    split; [|done]. by intros c ?%list_elem_of_singleton. }
  destruct (result_of (enrich W float item (state_of (getProgress W pid st))))
    as [item'|] eqn:Hr.
  - destruct (for_each_saved tot item item' todo idx cat st Hab Hr)
      as (st3 & reply & now & ->).
    cbn [events_of result_of snd fst].
    assert (Hcat' : <[idx:=item']> cat !! i = Some e).
    { destruct (decide (idx = i)) as [->|Hne].
      - specialize (Htodo ltac:(lia)). rewrite Nat.sub_diag in Htodo.
        injection Htodo as ->. rewrite enrich_skips in Hr by done.
        injection Hr as <-. apply list_lookup_insert_eq.
        by apply lookup_lt_Some in Hcat.
      - by rewrite list_lookup_insert_ne. }
    destruct (IH (S idx) _ st3 Hcat' Hnext) as [IHc IHf]. split.
    + intros c Hc. apply elem_of_cons in Hc as [?|Hc]; [done|].
      apply elem_of_app in Hc as [Hc|Hc].
      { rewrite enrich_events in Hc. destruct (removed_or_private item).
        - by apply elem_of_nil in Hc.
        - by apply list_elem_of_singleton in Hc. }
      apply elem_of_app in Hc as [Hc|Hc]; [|by apply IHc].
      apply elem_of_cons in Hc as [[= ->]|Hc]; [done|].
      repeat (apply elem_of_cons in Hc as [?|Hc]; [done|]).
      by apply elem_of_nil in Hc.
    + intros final Hfinal. destruct (IHf final Hfinal) as [Hfi Hcur].
      split; [done|]. intros Hle.
      destruct (decide (idx = i)) as [->|Hne].
      * exists (mkProgress "processing" (Z.of_nat i + 1) tot now
                           (default 0 reply)).
        split; [|done]. apply list_elem_of_further, elem_of_app.
        right. apply elem_of_app. left. do 2 apply list_elem_of_further.
        apply list_elem_of_here.
      * destruct Hcur as (p & Hp & Hpc); [lia|]. exists p. split; [|done].
        apply list_elem_of_further, elem_of_app. right. apply elem_of_app.
        by right.
  - assert (idx ≠ i).
    { intros ->. specialize (Htodo ltac:(lia)). rewrite Nat.sub_diag in Htodo.
      injection Htodo as ->. by rewrite enrich_skips in Hr. }
    rewrite for_each_raised by done. cbn [events_of result_of snd fst].
    destruct (IH (S idx) cat (state_of (enrich W float item
                (state_of (getProgress W pid st)))) Hcat Hnext) as [IHc IHf].
    split.
    + intros c Hc. apply elem_of_cons in Hc as [?|Hc]; [done|].
      apply elem_of_app in Hc as [Hc|Hc]; [|by apply IHc].
      rewrite enrich_events in Hc. destruct (removed_or_private item).
      * by apply elem_of_nil in Hc.
      * by apply list_elem_of_singleton in Hc.
    + intros final Hfinal. destruct (IHf final Hfinal) as [Hfi Hcur].
      split; [done|]. intros Hle. destruct Hcur as (p & Hp & Hpc); [lia|].
      exists p. split; [|done].
      apply list_elem_of_further, elem_of_app. by right.
Qed.

Lemma playlistData_pages_result answers acc st cat :
  result_of (playlistData_pages filterDate filterType pid answers acc st)
  = Some cat →
  ∃ items, cat = acc ++ map (entry_of filterDate filterType) items.
Proof.
  revert acc st. induction answers as [|items|items following IH];
    intros acc st; cbn [playlistData_pages]; rewrite result_of_bind.
  - done.
  - intros [= <-]. by exists items.
  - intros (items' & ->)%IH. exists (items ++ items').
    by rewrite map_app, app_assoc.
Qed.

(** Every fetched entry carries the defaults of [playlistData]. *)
Lemma playlistData_defaults st fetched i e :
  result_of (playlistData W filterDate filterType pid st) = Some fetched →
  fetched !! i = Some e →
  score e = ScoreInt 0 ∧ title e = "" ∧ artist e = "" ∧ mbid e = "".
Proof.
  intros (items & ->)%playlistData_pages_result Hi. simpl in Hi.
  apply list_lookup_fmap_Some in Hi as (item & -> & _). done.
Qed.

(** C8.  An entry whose source title is [Deleted video] or [Private video]
    is never looked up: no query of the run carries such a title.  The entry
    has the defaults of the fetch ([score = 0], empty [title], [artist] and
    [mbid]) and keeps them, unchanged as a whole, in every snapshot the run
    saves and in the catalog a completed run returns; and a completed run has
    written the cursor just past it. *)
Theorem removed_or_private_left_alone st :
  let run := processPlaylist W float filterDate filterType pid st in
  (∀ q, MusicBrainz_search q ∈ events_of run →
        q ≠ "Deleted video" ∧ q ≠ "Private video")
  ∧ (∀ fetched i e,
       result_of (playlistData W filterDate filterType pid st) = Some fetched →
       fetched !! i = Some e →
       removed_or_private e = true →
       (score e = ScoreInt 0 ∧ title e = "" ∧ artist e = "" ∧ mbid e = "")
       ∧ (∀ c, SETEX_catalog pid c ∈ events_of run → c !! i = Some e)
       ∧ (∀ final, result_of run = Some final →
            final !! i = Some e
            ∧ ∃ p, SETEX_progress pid p ∈ events_of run
                   ∧ currentItem p = Z.of_nat i + 1
                   ∧ status p = "processing")).
Proof.
  cbv zeta. pose proof (playlistData_events st) as Hyt.
  rewrite Forall_forall in Hyt.
  destruct (result_of (playlistData W filterDate filterType pid st))
    as [[|e0 cat0]|] eqn:Hfetch.
  1, 3: rewrite processPlaylist_failed by (by rewrite Hfetch);
    cbn [events_of result_of snd fst]; split;
    [ intros q [Hq|Hq]%elem_of_app; [by apply Hyt in Hq|];
      repeat (apply elem_of_cons in Hq as [?|Hq]; [done|]);
      by apply elem_of_nil in Hq
    | by intros fetched i e [= <-] ].
  destruct (processPlaylist_fetched st (e0 :: cat0) Hfetch)
    as (st1 & reply & now & tail & Hev & Htail); [done|].
  cbv zeta in Hev, Htail.
  set (tot := Z.of_nat (List.length (e0 :: cat0))) in *.
  assert (Htl : ∀ ev, ev ∈ tail → ∃ r x, ev = GET_connections pid r
             ∨ ev = SETEX_progress pid (mkProgress "completed" tot tot x
                                         (default 0 r))).
  { intros ev Hin.
    destruct Htail as [(_ & -> & _)|(c & r' & n' & _ & -> & _)].
    - by apply elem_of_nil in Hin.
    - exists r', n'. apply elem_of_cons in Hin as [->|Hin]; [by left|].
      apply list_elem_of_singleton in Hin as ->. by right. }
  split.
  - intros q Hq. rewrite Hev in Hq.
    apply elem_of_app in Hq as [Hq|Hq]; [by apply Hyt in Hq|].
    apply elem_of_app in Hq as [Hq|Hq].
    { repeat (apply elem_of_cons in Hq as [?|Hq]; [done|]).
      by apply elem_of_nil in Hq. }
    apply elem_of_app in Hq as [Hq|Hq]; [by eapply for_each_lookups|].
    by destruct (Htl _ Hq) as (r & x & [?|?]).
  - intros fetched i e [= <-] Hi Hrp.
    split; [by eapply playlistData_defaults|].
    destruct (for_each_keeps tot i e (e0 :: cat0) 0 (e0 :: cat0) st1 Hrp Hi)
      as [Hc Hf].
    { intros _. by rewrite Nat.sub_0_r. }
    split.
    + intros c Hin. rewrite Hev in Hin.
      apply elem_of_app in Hin as [Hin|Hin]; [by apply Hyt in Hin|].
      apply elem_of_app in Hin as [Hin|Hin].
      { repeat (apply elem_of_cons in Hin as [?|Hin]; [done|]).
        by apply elem_of_nil in Hin. }
      apply elem_of_app in Hin as [Hin|Hin]; [by apply Hc|].
      by destruct (Htl _ Hin) as (r & x & [?|?]).
    + intros final Hfinal.
      destruct Htail as [(_ & _ & Hrun)|(c & r' & n' & Hex & _ & Hres)].
      { rewrite Hrun in Hfinal. done. }
      rewrite Hres in Hfinal. injection Hfinal as ->.
      destruct (Hf final Hex) as [Hfi Hcur]. split; [done|].
      destruct Hcur as (p & Hp & Hpc); [lia|]. exists p. split; [|done].
      rewrite Hev. apply elem_of_app. right. apply elem_of_app. right.
      apply elem_of_app. by left.
Qed.

End Run.

(** ** The commands when nobody interferes *)

Section Quiet.

Variable W : World.
Hypothesis W_quiet : quiet W.
Variable float : string → option PyFloat.
Variable filterDate : string → option Z.
Variable filterType : string → string.

Lemma interfere_quiet n r : interfere W n r = r.
Proof. apply W_quiet. Qed.

Lemma clearProgress_quiet id st :
  clearProgress W id st
  = (tt,
     mkState (3 + ticks st)
             (del_catalog id (del_connections id (del_progress id (redis st)))),
     [DEL_progress id; DEL_connections id; DEL_catalog id]).
Proof.
  unfold clearProgress, clearCatalog.
  unfold redis_delete_progress, redis_delete_connections, redis_delete_catalog.
  by run_with interfere_quiet.
Qed.

Lemma incrementConnections_quiet id st :
  incrementConnections W id st
  = (viewers (redis st) id + 1,
     mkState (S (ticks st))
             (set_connections id (viewers (redis st) id + 1) (redis st)),
     [INCR_connections id (viewers (redis st) id + 1)]).
Proof. unfold incrementConnections, redis_incr. by run_with interfere_quiet. Qed.

Lemma saveProgress_quiet id cur tot sta st :
  saveProgress W id cur tot sta st
  = (tt,
     mkState (3 + ticks st)
       (set_progress id
          (mkProgress sta cur tot (time_time W (S (ticks st)))
                      (viewers (redis st) id))
          (redis st)),
     [GET_connections id (connections_key (redis st) !! id);
      SETEX_progress id
        (mkProgress sta cur tot (time_time W (S (ticks st)))
                    (viewers (redis st) id))]).
Proof.
  unfold saveProgress, redis_get_connections, redis_setex_progress.
  by run_with interfere_quiet.
Qed.

(** [decrementConnections] by cases on the count it finds. *)
Lemma decrementConnections_quiet id st :
  state_of (decrementConnections W id st)
  = let n := viewers (redis st) id - 1 in
    if n <=? 0 then
      match progress_key (redis st) !! id with
      | Some p =>
          if negb (status p =? "completed")%string
          then mkState (6 + ticks st)
                 (del_catalog id (del_connections id (del_progress id
                    (del_connections id
                       (set_connections id n (redis st))))))
          else mkState (3 + ticks st)
                 (del_connections id (set_connections id n (redis st)))
      | None => mkState (3 + ticks st)
                  (del_connections id (set_connections id n (redis st)))
      end
    else mkState (1 + ticks st) (set_connections id n (redis st)).
Proof.
  unfold decrementConnections, getProgress, clearProgress, clearCatalog.
  unfold redis_decr, redis_delete_connections, redis_get_progress.
  unfold redis_delete_progress, redis_delete_catalog.
  run_with interfere_quiet.
  destruct (viewers (redis st) id - 1 <=? 0); simpl; [|done].
  rewrite ?interfere_quiet; simpl.
  destruct (progress_key (redis st) !! id) as [p|]; simpl; [|done].
  destruct (status p =? "completed")%string; simpl; [done|].
  by rewrite ?interfere_quiet.
Qed.

Lemma decrementConnections_reply id st :
  result_of (decrementConnections W id st) = viewers (redis st) id - 1.
Proof.
  unfold decrementConnections, getProgress, clearProgress, clearCatalog.
  unfold redis_decr, redis_delete_connections, redis_get_progress.
  unfold redis_delete_progress, redis_delete_catalog.
  run_with interfere_quiet.
  destruct (viewers (redis st) id - 1 <=? 0); simpl; [|done].
  rewrite ?interfere_quiet; simpl.
  destruct (progress_key (redis st) !! id) as [p|]; simpl; [|done].
  by destruct (status p =? "completed")%string.
Qed.

Lemma getCatalog_quiet id st :
  getCatalog W id st
  = (catalog_key (redis st) !! id, mkState (S (ticks st)) (redis st),
     [GET_catalog id (catalog_key (redis st) !! id)]).
Proof. unfold getCatalog, redis_get_catalog. by run_with interfere_quiet. Qed.

Lemma getProgress_quiet id st :
  getProgress W id st
  = (progress_key (redis st) !! id, mkState (S (ticks st)) (redis st),
     [GET_progress id (progress_key (redis st) !! id)]).
Proof. unfold getProgress, redis_get_progress. by run_with interfere_quiet. Qed.

Lemma persist_quiet id tot idx cat st :
  redis (state_of (persist W id tot idx cat st))
  = set_progress id
      (mkProgress "processing" (Z.of_nat idx + 1) tot
                  (time_time W (S (S (ticks st)))) (viewers (redis st) id))
      (set_catalog id cat (redis st)).
Proof.
  unfold persist, saveCatalog, saveProgress, redis_setex_catalog.
  unfold redis_get_connections, redis_setex_progress. by run_with interfere_quiet.
Qed.

(** *** A run nobody abandons *)

(** With a viewer attached and nobody interfering, the loop runs through all
    its items. *)
Lemma for_each_quiet id tot todo idx cat st n :
  connections_key (redis st) !! id = Some n → 0 < n →
  (∃ p, progress_key (redis st) !! id = Some p ∧ 0 < activeConnections p) →
  let o := for_each W float id tot todo idx cat st in
  (∃ final, result_of o = Exhausted final)
  ∧ connections_key (redis (state_of o)) !! id = Some n.
Proof.
  revert idx cat st. induction todo as [|item todo IH];
    intros idx cat st Hn Hpos (p & Hp & Hact); cbv zeta.
  { split; [by eexists | done]. }
  assert (Hab : abandoned (result_of (getProgress W id st)) = false).
  { rewrite getProgress_quiet. simpl. rewrite Hp. simpl. by apply Z.leb_gt. }
  assert (Hst1 : redis (state_of (getProgress W id st)) = redis st).
  { by rewrite getProgress_quiet. }
  destruct (result_of (enrich W float item (state_of (getProgress W id st))))
    as [item'|] eqn:Hen.
  - rewrite (for_each_saved_at W float id tot item item' todo idx cat st Hab Hen).
    cbn [result_of state_of fst snd]. apply IH.
    + rewrite persist_quiet. simpl. by rewrite enrich_redis, Hst1.
    + done.
    + rewrite persist_quiet. simpl. rewrite lookup_insert_eq.
      eexists. split; [done|]. simpl.
      rewrite enrich_redis, Hst1. unfold viewers. by rewrite Hn.
  - rewrite (for_each_raised W float id tot item todo idx cat st Hab Hen).
    cbn [result_of state_of fst snd]. apply IH.
    + by rewrite enrich_redis, Hst1.
    + done.
    + rewrite enrich_redis, Hst1. by exists p.
Qed.

(** With a viewer attached and nobody interfering, a run either completes
    and leaves the [completed] record, or its fetch fails and it leaves
    nothing. *)
Lemma processPlaylist_quiet id st n :
  connections_key (redis st) !! id = Some n → 0 < n →
  let run := processPlaylist W float filterDate filterType id st in
  match result_of (playlistData W filterDate filterType id st) with
  | Some (e :: c) =>
      let tot := Z.of_nat (List.length (e :: c)) in
      ∃ final now,
        result_of run = Some final
        ∧ progress_key (redis (state_of run)) !! id
          = Some (mkProgress "completed" tot tot now n)
  | _ => result_of run = None ∧ torn_down (redis (state_of run)) id
  end.
Proof.
  intros Hn Hpos. cbv zeta.
  destruct (result_of (playlistData W filterDate filterType id st))
    as [[|e c]|] eqn:Hfetch.
  1, 3: rewrite processPlaylist_failed by (by rewrite Hfetch);
    cbn [result_of state_of fst snd]; split; [done|];
    rewrite clearProgress_quiet; unfold torn_down; simpl;
    by simplify_map_eq.
  rewrite (processPlaylist_unfold W float filterDate filterType id st (e :: c))
    by done.
  set (tot := Z.of_nat (List.length (e :: c))).
  set (st1 := state_of (saveProgress W id 0 tot "processing" _)).
  assert (Hst1 : redis st1
    = set_progress id
        (mkProgress "processing" 0 tot
           (time_time W (S (ticks (state_of
              (playlistData W filterDate filterType id st))))) n)
        (redis st)).
  { subst st1. rewrite saveProgress_quiet. simpl.
    rewrite playlistData_redis. unfold viewers. by rewrite Hn. }
  destruct (for_each_quiet id tot (e :: c) 0 (e :: c) st1 n)
    as [(final & Hfinal) Hconn].
  { by rewrite Hst1. }
  { done. }
  { rewrite Hst1. simpl. rewrite lookup_insert_eq. by eexists. }
  cbv zeta in Hfinal, Hconn. cbv zeta. rewrite Hfinal.
  cbn [result_of state_of fst snd].
  rewrite result_of_bind, state_of_bind. exists final. eexists.
  split; [done|].
  change (state_of (ret (Some final) ?s)) with s.
  rewrite saveProgress_quiet.
  cbn [state_of fst snd redis progress_key set_progress].
  rewrite lookup_insert_eq. unfold viewers. by rewrite Hconn.
Qed.

(** *** Attach and detach *)

Lemma connections_after_detach id id' st :
  connections_key (redis (state_of (decrementConnections W id st))) !! id'
  = if decide (id = id') then
      if viewers (redis st) id - 1 <=? 0 then None
      else Some (viewers (redis st) id - 1)
    else connections_key (redis st) !! id'.
Proof.
  rewrite decrementConnections_quiet. cbv zeta.
  destruct (viewers (redis st) id - 1 <=? 0).
  - destruct (progress_key (redis st) !! id) as [p|];
      [destruct (negb (status p =? "completed")%string)|];
      simpl; case_decide; simplify_map_eq; done.
  - simpl; case_decide; simplify_map_eq; done.
Qed.

Lemma connections_after_attach id id' st :
  connections_key (redis (state_of (incrementConnections W id st))) !! id'
  = if decide (id = id') then Some (viewers (redis st) id + 1)
    else connections_key (redis st) !! id'.
Proof.
  rewrite incrementConnections_quiet. simpl.
  case_decide; simplify_map_eq; done.
Qed.

Lemma attach_detach_state id st :
  state_of (attach_detach W id st)
  = state_of (decrementConnections W id
                (state_of (incrementConnections W id st))).
Proof. done. Qed.

Lemma viewers_after_attach id st :
  viewers (redis (state_of (incrementConnections W id st))) id
  = viewers (redis st) id + 1.
Proof.
  unfold viewers at 1. rewrite connections_after_attach.
  by rewrite decide_True.
Qed.

(** C3 (as amended).  When the Progress Record of [id] exists with a status
    other than [completed] and no viewer is attached (the Viewer Count is
    absent or not positive), one attach followed by one detach leaves the
    Progress Record, the Catalog snapshot and the Viewer Count of [id]
    absent. *)
Theorem attach_detach_abandons id st p :
  progress_key (redis st) !! id = Some p →
  status p ≠ "completed" →
  viewers (redis st) id ≤ 0 →
  torn_down (redis (state_of (attach_detach W id st))) id.
Proof.
  intros Hp Hstatus Hnone.
  rewrite attach_detach_state, decrementConnections_quiet.
  rewrite viewers_after_attach. cbv zeta.
  replace (viewers (redis st) id + 1 - 1) with (viewers (redis st) id) by lia.
  rewrite (proj2 (Z.leb_le _ _) Hnone).
  rewrite incrementConnections_quiet. simpl. rewrite Hp.
  destruct (status p =? "completed")%string eqn:E.
  { by apply String.eqb_eq in E. }
  simpl. unfold torn_down. simpl. by simplify_map_eq.
Qed.

(** C4 (as amended).  When the Progress Record of [id] exists with status
    [completed], one attach followed by one detach leaves every Progress
    Record and every Catalog snapshot as it was: the record of [id] is still
    present, and so is its snapshot if there was one.  No key changes but
    the Viewer Count of [id], which is deleted when no other viewer was
    attached (the count was absent or not positive) and keeps its value
    otherwise. *)
Theorem attach_detach_completed id st p :
  progress_key (redis st) !! id = Some p →
  status p = "completed" →
  let r := redis st in
  let r' := redis (state_of (attach_detach W id st)) in
  progress_key r' = progress_key r
  ∧ progress_key r' !! id = Some p
  ∧ catalog_key r' = catalog_key r
  ∧ connections_key r'
    = if viewers r id <=? 0 then delete id (connections_key r)
      else connections_key r.
Proof.
  intros Hp Hstatus r r'. subst r r'.
  rewrite attach_detach_state, decrementConnections_quiet.
  rewrite viewers_after_attach. cbv zeta.
  replace (viewers (redis st) id + 1 - 1) with (viewers (redis st) id) by lia.
  rewrite incrementConnections_quiet. simpl. rewrite Hp, Hstatus. simpl.
  destruct (viewers (redis st) id <=? 0) eqn:E; simpl.
  - repeat split; try done. by rewrite !delete_insert_eq.
  - repeat split; try done. rewrite insert_insert_eq. apply insert_id.
    apply Z.leb_gt in E. unfold viewers in *.
    destruct (connections_key (redis st) !! id); simpl in *; [done | lia].
Qed.

(** C10.  Over any sequence of attaches and detaches the Viewer Count key of
    an identifier stays absent or strictly positive; a detach whose decrement
    yields a value [≤ 0] leaves the key deleted, and a detach that finds no
    key decrements to [-1] and leaves the key absent. *)
Theorem viewer_count_absent_or_positive :
  (∀ ops id st,
     viewers_ok (redis st) id →
     viewers_ok (redis (state_of (viewer_ops W ops st))) id)
  ∧ (∀ id st,
       result_of (decrementConnections W id st) ≤ 0 →
       connections_key (redis (state_of (decrementConnections W id st))) !! id
       = None)
  ∧ (∀ id st,
       connections_key (redis st) !! id = None →
       result_of (decrementConnections W id st) = -1
       ∧ connections_key (redis (state_of (decrementConnections W id st)))
         !! id = None).
Proof.
  split; [|split].
  - induction ops as [|op ops IH]; intros id st Hok; [done|].
    cbn [viewer_ops]. rewrite state_of_bind. apply IH.
    unfold viewers_ok in *. destruct op as [a|a]; cbn [viewer_op].
    + rewrite connections_after_attach. case_decide; [subst a|done].
      unfold viewers. destruct (connections_key (redis st) !! id); simpl; lia.
    + rewrite connections_after_detach. case_decide; [subst a|done].
      destruct (viewers (redis st) id - 1 <=? 0) eqn:E; [done|].
      by apply Z.leb_gt in E.
  - intros id st. rewrite decrementConnections_reply. intros Hle.
    rewrite connections_after_detach, decide_True by done.
    by rewrite (proj2 (Z.leb_le _ _) Hle).
  - intros id st Habsent. rewrite decrementConnections_reply.
    rewrite connections_after_detach, decide_True by done.
    unfold viewers. by rewrite Habsent.
Qed.

(** *** The start request *)

(** C5.  When the Catalog snapshot of the identifier and a Progress Record
    with status [completed] are both present, a start request attaches a
    viewer and answers with the cached snapshot: its only Redis commands are
    the two reads and the INCR, so nothing is cleared, and it calls neither
    YouTube nor MusicBrainz. *)
Theorem startProcess_serves_cache url pid st c p :
  filterPlaylistId url = inr pid →
  catalog_key (redis st) !! pid = Some c →
  c ≠ [] →
  progress_key (redis st) !! pid = Some p →
  status p = "completed" →
  startProcess W float filterDate filterType (Some url) st
  = (Cached pid c,
     mkState (3 + ticks st)
             (set_connections pid (viewers (redis st) pid + 1) (redis st)),
     [GET_catalog pid (Some c);
      GET_progress pid (Some p);
      INCR_connections pid (viewers (redis st) pid + 1)]).
Proof.
  intros Hid Hc Hne Hp Hstatus.
  rewrite (run_eta (startProcess _ _ _ _ _ _)). unfold startProcess.
  rewrite Hid.
  rewrite !result_of_bind, !state_of_bind, !events_of_bind.
  rewrite getCatalog_quiet. cbn [result_of state_of events_of fst snd].
  rewrite getProgress_quiet. cbn [result_of state_of events_of fst snd redis].
  rewrite Hc, Hp. destruct c as [|e c]; [done|].
  cbn [completed_cache]. rewrite Hstatus. cbn [String.eqb Ascii.eqb Bool.eqb].
  rewrite !result_of_bind, !state_of_bind, !events_of_bind.
  by rewrite incrementConnections_quiet.
Qed.

(** C1 (as amended).  For a start request whose identifier has no completed
    cached result, the handler clears the three keys, attaches a viewer
    (count 1), executes the enrichment run to its end and only then answers
    [{success, playlistId}]: the state and the events at the time of the
    answer are those of the finished run.  If the fetch gave entries, the
    run has completed and its [completed] Progress Record is in Redis when
    the answer is produced; if not, the run has cleared the keys again. *)
Theorem startProcess_answers_after_run url pid st :
  filterPlaylistId url = inr pid →
  completed_cache (catalog_key (redis st) !! pid)
                  (progress_key (redis st) !! pid) = None →
  let st' := mkState (6 + ticks st)
               (set_connections pid 1
                  (del_catalog pid (del_connections pid
                     (del_progress pid (redis st))))) in
  let run := processPlaylist W float filterDate filterType pid st' in
  startProcess W float filterDate filterType (Some url) st
  = (Started pid, state_of run,
     [GET_catalog pid (catalog_key (redis st) !! pid);
      GET_progress pid (progress_key (redis st) !! pid);
      DEL_progress pid; DEL_connections pid; DEL_catalog pid;
      INCR_connections pid 1]
     ++ events_of run)
  ∧ match result_of (playlistData W filterDate filterType pid st') with
    | Some (e :: c) =>
        let tot := Z.of_nat (List.length (e :: c)) in
        ∃ final now,
          result_of run = Some final
          ∧ progress_key (redis (state_of run)) !! pid
            = Some (mkProgress "completed" tot tot now 1)
    | _ => result_of run = None ∧ torn_down (redis (state_of run)) pid
    end.
Proof.
  intros Hid Hcache st' run. split.
  - rewrite (run_eta (startProcess _ _ _ _ _ _)). unfold startProcess.
    rewrite Hid.
    rewrite !result_of_bind, !state_of_bind, !events_of_bind.
    rewrite getCatalog_quiet. cbn [result_of state_of events_of fst snd].
    rewrite getProgress_quiet. cbn [result_of state_of events_of fst snd redis].
    rewrite Hcache.
    rewrite !result_of_bind, !state_of_bind, !events_of_bind.
    rewrite clearProgress_quiet. cbn [result_of state_of events_of fst snd].
    rewrite incrementConnections_quiet.
    cbn [result_of state_of events_of fst snd redis ticks].
    assert (Hv : viewers (del_catalog pid (del_connections pid
                   (del_progress pid (redis st)))) pid + 1 = 1).
    { unfold viewers. simpl. by rewrite lookup_delete_eq. }
    rewrite Hv. change (events_of (ret ?x ?s)) with (@nil Event).
    rewrite app_nil_r. reflexivity.
  - apply (processPlaylist_quiet pid st' 1); [|done].
    subst st'. simpl. by rewrite lookup_insert_eq.
Qed.

End Quiet.

(** ** The concrete playlist, run *)

Module ScenarioFacts.
Import Scenario.

Lemma calm_quiet : quiet calm.
Proof. intros n r. reflexivity. Qed.

(** The cursors the calm run writes: entry 0, whose lookup raises, gets
    none. *)
Example calm_run_cursors :
  map currentItem (progress_writes "PL1" (events_of (run calm watched)))
  = [0; 2; 3; 3].
Proof. vm_compute. reflexivity. Qed.

Example calm_run_result :
  result_of (run calm watched)
  = Some [entry_a; entry_hidden;
          mkEntry 2 (ScoreFloat 100%Q) "B" "X & Y" (DateStr "2001") "Album"
                  "mbid-b" "Song B" "https://www.youtube.com/watch?v=vidB"
                  "Channel"].
Proof. vm_compute. reflexivity. Qed.

(** Without a viewer the run stops at its first check. *)
Example unwatched_run_stops :
  result_of (run calm fresh) = None
  ∧ filter (λ e, is_write e = true) (events_of (run calm fresh))
    = [SETEX_progress "PL1" (mkProgress "processing" 0 3 0%Q 0)].
Proof. vm_compute. split; reflexivity. Qed.

End ScenarioFacts.

(** C9, at a playlist URL and at a URL without a token. *)
Lemma filterPlaylistId_token_witness :
  filterPlaylistId "https://www.youtube.com/playlist?list=PL_x-9&index=2"
  = inr "PL_x-9"
  ∧ filterPlaylistId "https://www.youtube.com/watch?v=abc&list="
    = inl (mkPlaylistError "Invalid YouTube playlist URL" 400).
Proof.
  split.
  - apply (proj1 (filterPlaylistId_token _)
             "https://www.youtube.com/playlist?" "PL_x-9" "&index=2").
    + reflexivity.
    + discriminate.
    + reflexivity.
    + reflexivity.
    + apply UrlFacts.token_before_false. vm_compute. reflexivity.
  - apply (proj2 (filterPlaylistId_token _)).
    apply UrlFacts.token_before_none. vm_compute. reflexivity.
Defined.

(** C9, as stated, fails: the URL below contains the token [list=two],
    whose identifier is the run [two] up to the end of the URL, and
    extraction returns [one], taken from inside [playlist=one]; and a URL
    whose only parameter is [playlist=abc] is not refused but gives [abc]. *)
Lemma filterPlaylistId_takes_first_occurrence :
  "https://youtu.be/x?playlist=one&list=two"
  = ("https://youtu.be/x?playlist=one&" ++ "list=" ++ "two" ++ "")%string
  ∧ Url.is_run "two" = true
  ∧ Url.stops_run "" = true
  ∧ filterPlaylistId "https://youtu.be/x?playlist=one&list=two" ≠ inr "two"
  ∧ filterPlaylistId "https://youtu.be/x?playlist=one&list=two" = inr "one"
  ∧ filterPlaylistId "https://youtu.be/x?playlist=abc" = inr "abc".
Proof. repeat split; try reflexivity. discriminate. Qed.

(** C3, as stated, fails: a run that is watched by someone else survives the
    attach and detach of a second viewer. *)
Lemma attach_detach_keeps_watched_run :
  progress_key (redis Scenario.watched_run) !! "PL1"
  = Some Scenario.in_progress
  ∧ status Scenario.in_progress ≠ "completed"
  ∧ ¬ torn_down
        (redis (state_of (attach_detach Scenario.calm "PL1"
                            Scenario.watched_run)))
        "PL1".
Proof.
  split; [reflexivity|]. split; [discriminate|].
  intros (H & _). vm_compute in H. discriminate.
Qed.

(** C3 as amended, at a run nobody watches. *)
Lemma attach_detach_abandons_witness :
  torn_down
    (redis (state_of (attach_detach Scenario.calm "PL1"
                        Scenario.unwatched_run)))
    "PL1".
Proof.
  apply (attach_detach_abandons Scenario.calm (λ _ _, eq_refl) "PL1" _
           Scenario.in_progress).
  - reflexivity.
  - discriminate.
  - vm_compute. discriminate.
Defined.

(** C4, at a completed run nobody else watches. *)
Lemma attach_detach_completed_witness :
  progress_key
    (redis (state_of (attach_detach Scenario.calm "PL1"
                        Scenario.completed_run)))
  = progress_key (redis Scenario.completed_run)
  ∧ progress_key
      (redis (state_of (attach_detach Scenario.calm "PL1"
                          Scenario.completed_run))) !! "PL1"
    = Some Scenario.finished
  ∧ catalog_key
      (redis (state_of (attach_detach Scenario.calm "PL1"
                          Scenario.completed_run)))
    = catalog_key (redis Scenario.completed_run)
  ∧ connections_key
      (redis (state_of (attach_detach Scenario.calm "PL1"
                          Scenario.completed_run)))
    = if viewers (redis Scenario.completed_run) "PL1" <=? 0
      then delete "PL1" (connections_key (redis Scenario.completed_run))
      else connections_key (redis Scenario.completed_run).
Proof.
  apply (attach_detach_completed Scenario.calm (λ _ _, eq_refl) "PL1"
           Scenario.completed_run Scenario.finished).
  - reflexivity.
  - reflexivity.
Defined.

(** C4, as stated, fails at what the server itself leaves behind.  After a
    start request the run is [completed] and the Viewer Count is 1: the
    attach and detach of a viewer does not delete the key.  After a start
    request during which every lookup raised, the run is [completed] and has
    no snapshot, before the attach and detach and after. *)
Lemma attach_detach_completed_keeps_count :
  (status <$> progress_key
                (redis (state_of (Scenario.start Scenario.calm Scenario.fresh)))
              !! "PL1"
   = Some "completed"
   ∧ connections_key
       (redis (state_of (attach_detach Scenario.calm "PL1"
                 (state_of (Scenario.start Scenario.calm Scenario.fresh)))))
     !! "PL1"
     = Some 1)
  ∧ (status <$> progress_key
                  (redis (state_of (Scenario.start Scenario.down
                                      Scenario.fresh)))
                !! "PL1"
     = Some "completed"
     ∧ catalog_key
         (redis (state_of (attach_detach Scenario.down "PL1"
                   (state_of (Scenario.start Scenario.down Scenario.fresh)))))
       !! "PL1"
       = None).
Proof. vm_compute. repeat split; reflexivity. Qed.

(** C10, at a detach without attach followed by two attaches and a detach. *)
Lemma viewer_count_absent_or_positive_witness :
  viewers_ok
    (redis (state_of (viewer_ops Scenario.calm
       [Detach "PL1"; Attach "PL1"; Attach "PL1"; Detach "PL1"]
       Scenario.fresh)))
    "PL1"
  ∧ result_of (decrementConnections Scenario.calm "PL1" Scenario.fresh) = -1
  ∧ connections_key
      (redis (state_of (decrementConnections Scenario.calm "PL1"
                          Scenario.fresh))) !! "PL1" = None.
Proof.
  destruct (viewer_count_absent_or_positive Scenario.calm (λ _ _, eq_refl))
    as (Hops & _ & Habsent).
  split.
  - apply Hops. vm_compute. exact I.
  - apply Habsent. reflexivity.
Defined.

(** C5, at a completed run. *)
Lemma startProcess_serves_cache_witness :
  Scenario.start Scenario.calm Scenario.completed_run
  = (Cached "PL1" [Scenario.entry_a],
     mkState 3 (set_connections "PL1" 1 (redis Scenario.completed_run)),
     [GET_catalog "PL1" (Some [Scenario.entry_a]);
      GET_progress "PL1" (Some Scenario.finished);
      INCR_connections "PL1" 1]).
Proof.
  apply (startProcess_serves_cache Scenario.calm (λ _ _, eq_refl)
           Scenario.float Scenario.filterDate Scenario.filterType
           Scenario.url "PL1" Scenario.completed_run
           [Scenario.entry_a] Scenario.finished).
  - reflexivity.
  - reflexivity.
  - discriminate.
  - reflexivity.
  - reflexivity.
Defined.

(** C1, as stated, fails: when the answer [{success, playlistId}] is
    produced the run has already written its [completed] record, and that
    record is what Redis holds. *)
Lemma startProcess_answers_after_completion :
  result_of (Scenario.start Scenario.calm Scenario.fresh) = Started "PL1"
  ∧ SETEX_progress "PL1" (mkProgress "completed" 3 3 0%Q 1)
    ∈ events_of (Scenario.start Scenario.calm Scenario.fresh)
  ∧ progress_key (redis (state_of (Scenario.start Scenario.calm
                                     Scenario.fresh))) !! "PL1"
    = Some (mkProgress "completed" 3 3 0%Q 1).
Proof.
  split; [vm_compute; reflexivity|]. split; [|vm_compute; reflexivity].
  apply list_elem_of_In. vm_compute. tauto.
Qed.

(** C1 as amended, at the concrete playlist. *)
Lemma startProcess_answers_after_run_witness :
  Scenario.start Scenario.calm Scenario.fresh
  = (Started "PL1",
     state_of (Scenario.run Scenario.calm
                 (mkState 6 (set_connections "PL1" 1 no_keys))),
     [GET_catalog "PL1" None; GET_progress "PL1" None;
      DEL_progress "PL1"; DEL_connections "PL1"; DEL_catalog "PL1";
      INCR_connections "PL1" 1]
     ++ events_of (Scenario.run Scenario.calm
                     (mkState 6 (set_connections "PL1" 1 no_keys)))).
Proof.
  destruct (startProcess_answers_after_run Scenario.calm (λ _ _, eq_refl)
              Scenario.float Scenario.filterDate Scenario.filterType
              Scenario.url "PL1" Scenario.fresh) as [Hrun _].
  - reflexivity.
  - reflexivity.
  - unfold Scenario.start. rewrite Hrun. vm_compute. reflexivity.
Defined.

(** C2, as stated, fails: the lookup for entry 0 raises, the run goes on to
    the end, and nothing was written for entry 0: no Progress Record with
    [currentItem = 1], and only two snapshots for three entries. *)
Lemma raising_lookup_not_persisted :
  search_releases Scenario.calm 0 (ytname Scenario.entry_a) = SearchRaises
  ∧ (∃ final, result_of (Scenario.run Scenario.calm Scenario.watched)
              = Some final)
  ∧ map currentItem
        (progress_writes "PL1"
           (events_of (Scenario.run Scenario.calm Scenario.watched)))
    = [0; 2; 3; 3]
  ∧ List.length
      (catalog_writes "PL1"
         (events_of (Scenario.run Scenario.calm Scenario.watched)))
    = 2%nat.
Proof.
  split; [reflexivity|]. split; [eexists; vm_compute; reflexivity|].
  split; vm_compute; reflexivity.
Qed.

(** C2 as amended, at the private entry of the concrete playlist. *)
Lemma entry_persisted_witness :
  ∃ st3 reply now,
    for_each Scenario.calm Scenario.float "PL1" 3
      [Scenario.entry_hidden; Scenario.entry_b] 1
      [Scenario.entry_a; Scenario.entry_hidden; Scenario.entry_b]
      Scenario.watched_run
    = (result_of
         (for_each Scenario.calm Scenario.float "PL1" 3 [Scenario.entry_b] 2
            [Scenario.entry_a; Scenario.entry_hidden; Scenario.entry_b] st3),
       state_of
         (for_each Scenario.calm Scenario.float "PL1" 3 [Scenario.entry_b] 2
            [Scenario.entry_a; Scenario.entry_hidden; Scenario.entry_b] st3),
       GET_progress "PL1" (Some Scenario.in_progress)
       :: [SETEX_catalog "PL1"
             [Scenario.entry_a; Scenario.entry_hidden; Scenario.entry_b];
           GET_connections "PL1" reply;
           SETEX_progress "PL1"
             (mkProgress "processing" 2 3 now (default 0 reply));
           Sleep]
       ++ events_of
            (for_each Scenario.calm Scenario.float "PL1" 3 [Scenario.entry_b]
               2 [Scenario.entry_a; Scenario.entry_hidden; Scenario.entry_b]
               st3)).
Proof.
  destruct (entry_persisted Scenario.calm Scenario.float "PL1" 3
              Scenario.entry_hidden Scenario.entry_hidden [Scenario.entry_b] 1
              [Scenario.entry_a; Scenario.entry_hidden; Scenario.entry_b]
              Scenario.watched_run)
    as (st3 & reply & now & _ & Hrun).
  - reflexivity.
  - left. split; reflexivity.
  - exists st3, reply, now. exact Hrun.
Defined.

(** C7, at the run whose only viewer leaves. *)
Lemma abandoned_run_stops_witness :
  result_of (Scenario.run Scenario.leaving Scenario.watched) = None
  ∧ last (events_of (Scenario.run Scenario.leaving Scenario.watched))
    = Some (GET_progress "PL1" None).
Proof.
  destruct (proj2 (proj2 (abandoned_run_stops Scenario.leaving Scenario.float
                            Scenario.filterDate Scenario.filterType "PL1"))
              Scenario.watched
              (removelast (events_of (Scenario.run Scenario.leaving
                                        Scenario.watched)))
              None [])
    as [_ Hnone].
  - vm_compute. reflexivity.
  - reflexivity.
  - split; [exact Hnone | vm_compute; reflexivity].
Defined.

(** C8, at the private entry of the concrete playlist. *)
Lemma removed_or_private_left_alone_witness :
  (score Scenario.entry_hidden = ScoreInt 0
   ∧ title Scenario.entry_hidden = ""
   ∧ artist Scenario.entry_hidden = ""
   ∧ mbid Scenario.entry_hidden = "")
  ∧ ∃ final,
      result_of (Scenario.run Scenario.calm Scenario.watched) = Some final
      ∧ final !! 1%nat = Some Scenario.entry_hidden
      ∧ ∃ p, SETEX_progress "PL1" p
             ∈ events_of (Scenario.run Scenario.calm Scenario.watched)
             ∧ currentItem p = 2 ∧ status p = "processing".
Proof.
  destruct (proj2 (removed_or_private_left_alone Scenario.calm Scenario.float
                     Scenario.filterDate Scenario.filterType "PL1"
                     Scenario.watched)
              [Scenario.entry_a; Scenario.entry_hidden; Scenario.entry_b]
              1%nat Scenario.entry_hidden)
    as (Hdefaults & _ & Hfinal).
  - vm_compute. reflexivity.
  - reflexivity.
  - reflexivity.
  - split; [exact Hdefaults|].
    destruct (result_of (Scenario.run Scenario.calm Scenario.watched))
      as [final|] eqn:Hres; [|vm_compute in Hres; discriminate].
    exists final. split; [reflexivity|]. by apply Hfinal.
Defined.

(** * Further properties *)

(** ** The title classifiers *)

Module TitleFacts.
Import Title.

Lemma last_char_cons c a :
  last_char (String c a) = Some (default c (last_char a)).
Proof.
  revert c. induction a as [|d a IH]; intros c; [done|].
  change (last_char (String c (String d a))) with (last_char (String d a)).
  by rewrite IH.
Qed.

Lemma before_cons prev c a : before prev (String c a) = before (Some c) a.
Proof.
  unfold before. rewrite last_char_cons. by destruct (last_char a).
Qed.

Lemma year_search_found prev s y :
  year_search prev s = Some y →
  ∃ a rest, s = (a ++ rest)%string ∧ year_here (before prev a) rest = Some y.
Proof.
  revert prev. induction s as [|c r IH]; intros prev; cbn [year_search].
  - destruct (year_here prev "") eqn:E; [|done]. intros [= ->].
    by exists EmptyString, EmptyString.
  - destruct (year_here prev (String c r)) as [y'|] eqn:E.
    + intros [= ->]. by exists EmptyString, (String c r).
    + intros (a & rest & -> & Hy)%IH. exists (String c a), rest.
      split; [done|]. by rewrite before_cons.
Qed.

Lemma digit_value_range c : digitChar c = true → 0 ≤ digit_value c ≤ 9.
Proof.
  unfold digitChar, digit_value. cbv zeta. intros H.
  apply andb_prop in H as [H1 H2].
  apply N.leb_le in H1, H2. lia.
Qed.

Lemma year_here_shape prev s y :
  year_here prev s = Some y →
  ∃ c1 c2 c3 c4 post,
    s = String c1 (String c2 (String c3 (String c4 post)))
    ∧ (c1 = "1"%char ∧ c2 = "9"%char ∨ c1 = "2"%char ∧ c2 = "0"%char)
    ∧ digitChar c3 = true ∧ digitChar c4 = true
    ∧ y = 1000 * digit_value c1 + 100 * digit_value c2
          + 10 * digit_value c3 + digit_value c4
    ∧ boundary_before prev = true ∧ boundary_after post = true.
Proof.
  unfold year_here.
  destruct s as [|c1 [|c2 [|c3 [|c4 post]]]]; try done.
  destruct (boundary_before prev) eqn:Hb; [|done].
  destruct (Ascii.eqb c1 "1" && Ascii.eqb c2 "9"
            || Ascii.eqb c1 "2" && Ascii.eqb c2 "0") eqn:H12; [|done].
  destruct (digitChar c3) eqn:H3; [|done].
  destruct (digitChar c4) eqn:H4; [|done].
  destruct (boundary_after post) eqn:Ha; [|done].
  simpl. intros [= <-]. exists c1, c2, c3, c4, post.
  repeat split; try done.
  apply orb_prop in H12 as [H|H]; apply andb_prop in H as [Ha1 Ha2];
    apply Ascii.eqb_eq in Ha1, Ha2; subst; auto.
Qed.

Lemma year_here_other prev c r :
  Ascii.eqb c "1" = false → Ascii.eqb c "2" = false →
  year_here prev (String c r) = None.
Proof.
  intros H1 H2. unfold year_here.
  destruct r as [|c2 [|c3 [|c4 rest]]]; try done.
  rewrite H1, H2. simpl. by rewrite andb_false_r.
Qed.

(** The search passes over a stretch without [1] and [2]. *)
Lemma year_search_skip prev pre s :
  without "1" "2" pre = true →
  year_search prev (pre ++ s)%string = year_search (before prev pre) s.
Proof.
  revert prev. induction pre as [|c a IH]; intros prev Hw; [done|].
  cbn [without] in Hw. apply andb_prop in Hw as [Hc Ha].
  apply andb_prop in Hc as [H1 H2]. apply negb_true_iff in H1, H2.
  change (String c a ++ s)%string with (String c (a ++ s)%string).
  cbn [year_search]. rewrite year_here_other by done.
  rewrite IH by done. by rewrite before_cons.
Qed.

Lemma year_search_here prev s y :
  year_here prev s = Some y → year_search prev s = Some y.
Proof. intros H. destruct s; cbn [year_search]; by rewrite H. Qed.

Lemma fold_idem c : fold (fold c) = fold c.
Proof. destruct c as [[] [] [] [] [] [] [] []]; reflexivity. Qed.

Lemma literal_i_fold w post :
  literal_i (fold_all w) (w ++ post)%string = Some post.
Proof.
  induction w as [|c w IH]; [done|].
  change (String c w ++ post)%string with (String c (w ++ post)%string).
  cbn [fold_all literal_i]. by rewrite Ascii.eqb_refl.
Qed.

Lemma word_here_fold w prev post :
  boundary_before prev = true → boundary_after post = true →
  word_here (fold_all w) prev (w ++ post)%string = true.
Proof.
  intros Hb Ha. unfold word_here. by rewrite Hb, literal_i_fold.
Qed.

(** A match somewhere makes the search succeed. *)
Lemma search_found here prev pre s :
  here (before prev pre) s = true →
  search here prev (pre ++ s)%string = true.
Proof.
  revert prev. induction pre as [|c a IH]; intros prev H.
  - change (EmptyString ++ s)%string with s.
    destruct s; cbn [search]; unfold before in H; simpl in H;
      by rewrite H.
  - change (String c a ++ s)%string with (String c (a ++ s)%string).
    cbn [search]. rewrite before_cons in H. rewrite (IH _ H).
    apply orb_true_r.
Qed.

(** No match where a letter of the word is missing. *)
Lemma search_without here a b prev s :
  (∀ prev s, without a b s = true → here prev s = false) →
  without a b s = true →
  search here prev s = false.
Proof.
  intros Hhere. revert prev. induction s as [|c r IH]; intros prev Hw.
  - cbn [search]. rewrite Hhere by done. done.
  - cbn [search]. rewrite Hhere by done.
    cbn [without] in Hw. apply andb_prop in Hw as [_ Hr]. by apply IH.
Qed.

Lemma fold_l c : Ascii.eqb "l" (fold c) = true → c = "l"%char ∨ c = "L"%char.
Proof.
  destruct c as [[] [] [] [] [] [] [] []]; vm_compute; intros H;
    try discriminate; auto.
Qed.

Lemma fold_p c : Ascii.eqb "p" (fold c) = true → c = "p"%char ∨ c = "P"%char.
Proof.
  destruct c as [[] [] [] [] [] [] [] []]; vm_compute; intros H;
    try discriminate; auto.
Qed.

Lemma without_cons a b c r :
  without a b (String c r) = true →
  c ≠ a ∧ c ≠ b ∧ without a b r = true.
Proof.
  cbn [without]. intros H. apply andb_prop in H as [H Hr].
  apply andb_prop in H as [Ha Hb]. apply negb_true_iff in Ha, Hb.
  apply Ascii.eqb_neq in Ha, Hb. done.
Qed.

(** A tactic for the four lemmas below: walk the literal, and at the letter
    the title lacks, conclude. *)
Lemma word_here_false w prev s :
  literal_i w s = None → word_here w prev s = false.
Proof. unfold word_here. intros ->. apply andb_false_r. Qed.

Lemma literal_i_cons a w b s :
  literal_i (String a w) (String b s)
  = if Ascii.eqb a (fold b) then literal_i w s else None.
Proof. done. Qed.

Lemma literal_i_nil a w : literal_i (String a w) EmptyString = None.
Proof. done. Qed.

Lemma album_needs_l prev s :
  without "l" "L" s = true → word_here "album" prev s = false.
Proof.
  intros Hw. apply word_here_false.
  destruct s as [|c1 [|c2 r]]; rewrite ?literal_i_cons, ?literal_i_nil;
    try done.
  { by destruct (Ascii.eqb "a" (fold c1)). }
  destruct (Ascii.eqb "a" (fold c1)); [|done].
  destruct (Ascii.eqb "l" (fold c2)) eqn:E; [|done].
  apply without_cons in Hw as (_ & _ & Hw).
  apply without_cons in Hw as (H1 & H2 & _).
  by destruct (fold_l _ E).
Qed.

Lemma lp_needs_l prev s :
  without "l" "L" s = true → word_here "lp" prev s = false.
Proof.
  intros Hw. apply word_here_false.
  destruct s as [|c1 r]; rewrite ?literal_i_cons, ?literal_i_nil; [done|].
  destruct (Ascii.eqb "l" (fold c1)) eqn:E; [|done].
  apply without_cons in Hw as (H1 & H2 & _).
  by destruct (fold_l _ E).
Qed.

Lemma single_needs_l prev s :
  without "l" "L" s = true → word_here "single" prev s = false.
Proof.
  intros Hw. apply word_here_false.
  destruct s as [|c1 [|c2 [|c3 [|c4 [|c5 r]]]]];
    rewrite ?literal_i_cons, ?literal_i_nil; try done;
    repeat (match goal with
            | |- (if ?b then _ else _) = None =>
                destruct b eqn:?; [|done]
            end); try done.
  repeat (apply without_cons in Hw as (? & ? & Hw)).
  match goal with H : Ascii.eqb "l" (fold _) = true |- _ =>
    by destruct (fold_l _ H) end.
Qed.

Lemma ep_needs_p prev s :
  without "p" "P" s = true → word_here "ep" prev s = false.
Proof.
  intros Hw. apply word_here_false.
  destruct s as [|c1 [|c2 r]]; rewrite ?literal_i_cons, ?literal_i_nil;
    try done.
  { by destruct (Ascii.eqb "e" (fold c1)). }
  destruct (Ascii.eqb "e" (fold c1)); [|done].
  destruct (Ascii.eqb "p" (fold c2)) eqn:E; [|done].
  apply without_cons in Hw as (_ & _ & Hw).
  apply without_cons in Hw as (H1 & H2 & _).
  by destruct (fold_p _ E).
Qed.

End TitleFacts.

(** X1.  For a title of ASCII characters: a year [filterDate] returns lies
    between 1900 and 2024 and is written in the title: four digits starting
    with 19 or 20, with no letter, digit or underscore right before or right
    after them. *)
Theorem filterDate_year (title : string) (y : Z) :
  Title.ascii_only title = true →
  Title.filterDate title = Some y →
  1900 ≤ y ≤ 2024
  ∧ ∃ pre c3 c4 post,
      Title.digitChar c3 = true ∧ Title.digitChar c4 = true
      ∧ Title.boundary_before (Title.last_char pre) = true
      ∧ Title.boundary_after post = true
      ∧ (title = (pre ++ String "1" (String "9" (String c3 (String c4 post))))%string
         ∧ y = 1900 + 10 * Title.digit_value c3 + Title.digit_value c4
         ∨ title = (pre ++ String "2" (String "0" (String c3 (String c4 post))))%string
           ∧ y = 2000 + 10 * Title.digit_value c3 + Title.digit_value c4).
Proof.
  intros _. unfold Title.filterDate.
  destruct (Title.year_search None title) as [y'|] eqn:Hs; [|done].
  destruct ((1900 <=? y') && (y' <=? 2024)) eqn:Hr; [|done].
  intros [= ->]. split.
  { apply andb_prop in Hr as [H1 H2]. lia. }
  apply TitleFacts.year_search_found in Hs as (pre & rest & -> & Hy).
  apply TitleFacts.year_here_shape in Hy
    as (c1 & c2 & c3 & c4 & post & -> & H12 & H3 & H4 & -> & Hb & Ha).
  exists pre, c3, c4, post. split; [done|]. split; [done|].
  split. { unfold Title.before in Hb. by destruct (Title.last_char pre). }
  split; [done|].
  destruct H12 as [[-> ->]|[-> ->]]; [left|right]; (split; [done|]);
    unfold Title.digit_value; simpl; lia.
Qed.

(** X2.  For a title of ASCII characters: the first four-digit word starting
    with 19 or 20 decides.  When no [1] or [2] comes before it, [filterDate]
    gives its value if that is at most 2024 and gives nothing otherwise,
    whatever follows in the title. *)
Theorem filterDate_first_candidate (pre : string) (c1 c2 c3 c4 : ascii)
    (post : string) :
  Title.ascii_only
    (pre ++ String c1 (String c2 (String c3 (String c4 post))))%string
  = true →
  Title.without "1" "2" pre = true →
  Title.boundary_before (Title.last_char pre) = true →
  (c1 = "1"%char ∧ c2 = "9"%char ∨ c1 = "2"%char ∧ c2 = "0"%char) →
  Title.digitChar c3 = true → Title.digitChar c4 = true →
  Title.boundary_after post = true →
  let y := 1000 * Title.digit_value c1 + 100 * Title.digit_value c2
           + 10 * Title.digit_value c3 + Title.digit_value c4 in
  Title.filterDate
    (pre ++ String c1 (String c2 (String c3 (String c4 post))))%string
  = if y <=? 2024 then Some y else None.
Proof.
  intros _ Hpre Hb H12 H3 H4 Ha y. unfold Title.filterDate.
  rewrite TitleFacts.year_search_skip by done.
  rewrite (TitleFacts.year_search_here _ _ y).
  - pose proof (TitleFacts.digit_value_range _ H3).
    pose proof (TitleFacts.digit_value_range _ H4).
    assert (1900 ≤ y).
    { subst y. destruct H12 as [[-> ->]|[-> ->]];
        unfold Title.digit_value at 1 2; simpl; lia. }
    by rewrite (proj2 (Z.leb_le 1900 y)).
  - unfold Title.year_here.
    assert (Hb' : Title.boundary_before (Title.before None pre) = true).
    { unfold Title.before. by destruct (Title.last_char pre). }
    rewrite Hb', H3, H4, Ha.
    by destruct H12 as [[-> ->]|[-> ->]].
Qed.

(** X3.  A title of ASCII characters in which [album] or [lp] stands as a
    word of its own, in any mix of upper and lower case, is an [Album],
    whatever else the title says: [EP] and [Single] are only looked for when
    there is no such word. *)
Theorem filterType_album (pre w post : string) :
  Title.ascii_only (pre ++ w ++ post)%string = true →
  (Title.fold_all w = "album" ∨ Title.fold_all w = "lp") →
  Title.boundary_before (Title.last_char pre) = true →
  Title.boundary_after post = true →
  Title.filterType (pre ++ w ++ post)%string = "Album".
Proof.
  intros _ Hw Hb Ha. unfold Title.filterType.
  rewrite TitleFacts.search_found; [done|].
  assert (Hb' : Title.boundary_before (Title.before None pre) = true).
  { unfold Title.before. by destruct (Title.last_char pre). }
  destruct Hw as [<-|<-].
  - by rewrite TitleFacts.word_here_fold.
  - rewrite (TitleFacts.word_here_fold w) by done. apply orb_true_r.
Qed.

(** X4.  A title of ASCII characters without the letter L, in either case,
    is never an [Album] and never a [Single]; it is an [EP] if [ep] stands in
    it as a word of its own, and [Unknown] if it has no letter P either. *)
Theorem filterType_without_l (title : string) :
  Title.ascii_only title = true →
  Title.without "l" "L" title = true →
  (Title.filterType title = "EP" ∨ Title.filterType title = "Unknown")
  ∧ (∀ pre w post,
       title = (pre ++ w ++ post)%string →
       Title.fold_all w = "ep" →
       Title.boundary_before (Title.last_char pre) = true →
       Title.boundary_after post = true →
       Title.filterType title = "EP")
  ∧ (Title.without "p" "P" title = true →
     Title.filterType title = "Unknown").
Proof.
  intros _ Hl.
  assert (Halbum : Title.search
            (λ prev s, Title.word_here "album" prev s
                       || Title.word_here "lp" prev s) None title = false).
  { apply (TitleFacts.search_without _ "l" "L"); [|done].
    intros prev s Hs.
    by rewrite TitleFacts.album_needs_l, TitleFacts.lp_needs_l. }
  assert (Hsingle : Title.search (Title.word_here "single") None title
                    = false).
  { apply (TitleFacts.search_without _ "l" "L"); [|done].
    intros prev s Hs. by apply TitleFacts.single_needs_l. }
  unfold Title.filterType. rewrite Halbum, Hsingle.
  split; [|split].
  - destruct (Title.search (Title.word_here "ep") None title); auto.
  - intros pre w post -> Hw Hb Ha.
    rewrite TitleFacts.search_found; [done|]. rewrite <- Hw.
    apply TitleFacts.word_here_fold; [|done].
    unfold Title.before. by destruct (Title.last_char pre).
  - intros Hp.
    rewrite (TitleFacts.search_without _ "p" "P"); [done| |done].
    intros prev s Hs. by apply TitleFacts.ep_needs_p.
Qed.

(** ** The caches, one request at a time *)

Section Caches.

Variable W : World.
Hypothesis W_quiet : quiet W.

Lemma saveCatalog_quiet id c st :
  saveCatalog W id c st
  = (tt, mkState (S (ticks st)) (set_catalog id c (redis st)),
     [SETEX_catalog id c]).
Proof.
  unfold saveCatalog, redis_setex_catalog.
  by run_with (interfere_quiet W W_quiet).
Qed.

(** X5.  What [saveCatalog] stores under an identifier is what [getCatalog]
    reads back, an empty list included; the snapshots of the other
    identifiers, the Progress Records and the Viewer Counts stay as they
    were. *)
Theorem saveCatalog_getCatalog id c st :
  let st' := state_of (saveCatalog W id c st) in
  result_of (getCatalog W id st') = Some c
  ∧ (∀ id', id' ≠ id →
       result_of (getCatalog W id' st') = result_of (getCatalog W id' st))
  ∧ progress_key (redis st') = progress_key (redis st)
  ∧ connections_key (redis st') = connections_key (redis st).
Proof.
  cbv zeta. rewrite saveCatalog_quiet. cbn [state_of fst snd].
  split; [|split; [|done]].
  - rewrite getCatalog_quiet by done. cbn [result_of fst redis]. simpl.
    apply lookup_insert_eq.
  - intros id' Hne. rewrite !getCatalog_quiet by done.
    cbn [result_of fst redis]. simpl. by apply lookup_insert_ne.
Qed.

(** X6.  The record [getProgress] reads after [saveProgress] has the status,
    cursor and total given, and as [activeConnections] the Viewer Count of
    that moment, 0 when the key is absent; the records of the other
    identifiers, the snapshots and the Viewer Counts stay as they were. *)
Theorem saveProgress_getProgress id cur tot sta st :
  let st' := state_of (saveProgress W id cur tot sta st) in
  (∃ now, result_of (getProgress W id st')
          = Some (mkProgress sta cur tot now
                    (default 0 (connections_key (redis st) !! id))))
  ∧ (∀ id', id' ≠ id →
       result_of (getProgress W id' st') = result_of (getProgress W id' st))
  ∧ catalog_key (redis st') = catalog_key (redis st)
  ∧ connections_key (redis st') = connections_key (redis st).
Proof.
  cbv zeta. rewrite saveProgress_quiet by done. cbn [state_of fst snd].
  split; [|split; [|done]].
  - eexists. rewrite getProgress_quiet by done. cbn [result_of fst redis].
    simpl. apply lookup_insert_eq.
  - intros id' Hne. rewrite !getProgress_quiet by done.
    cbn [result_of fst redis]. simpl. by apply lookup_insert_ne.
Qed.

(** X7.  After [clearProgress], and so after the cancel request, the status
    request finds no record ([None], answered 404), [getCatalog] finds no
    snapshot and the Viewer Count is gone; every key of another identifier is
    untouched, and clearing again changes nothing. *)
Theorem cancelProcess_clears id st :
  let st' := state_of (cancelProcess W id st) in
  result_of (getStatus W id st') = None
  ∧ result_of (getCatalog W id st') = None
  ∧ connections_key (redis st') !! id = None
  ∧ (∀ id', id' ≠ id →
       catalog_key (redis st') !! id' = catalog_key (redis st) !! id'
       ∧ progress_key (redis st') !! id' = progress_key (redis st) !! id'
       ∧ connections_key (redis st') !! id'
         = connections_key (redis st) !! id')
  ∧ redis (state_of (cancelProcess W id st')) = redis st'.
Proof.
  cbv zeta. unfold cancelProcess, getStatus.
  rewrite !clearProgress_quiet by done. cbn [state_of fst snd redis].
  rewrite getProgress_quiet, getCatalog_quiet by done.
  cbn [result_of fst redis]. simpl.
  split; [apply lookup_delete_eq|]. split; [apply lookup_delete_eq|].
  split; [apply lookup_delete_eq|]. split.
  - intros id' Hne. by rewrite !lookup_delete_ne.
  - unfold del_catalog, del_connections, del_progress. simpl.
    by rewrite !delete_delete_eq.
Qed.

(** X8.  A detach that leaves other viewers behind (the count was at least
    2) replies with the count less one and changes nothing else.  The detach
    of the last viewer of a run that is not [completed] leaves Redis exactly
    as the cancel request does. *)
Theorem decrementConnections_last_or_not id st :
  (2 ≤ viewers (redis st) id →
   result_of (decrementConnections W id st) = viewers (redis st) id - 1
   ∧ redis (state_of (decrementConnections W id st))
     = set_connections id (viewers (redis st) id - 1) (redis st))
  ∧ (∀ p, viewers (redis st) id ≤ 1 →
          progress_key (redis st) !! id = Some p →
          status p ≠ "completed" →
          redis (state_of (decrementConnections W id st))
          = redis (state_of (cancelProcess W id st))).
Proof.
  split.
  - intros Hn. rewrite decrementConnections_reply by done. split; [done|].
    rewrite decrementConnections_quiet by done. cbv zeta.
    by rewrite (proj2 (Z.leb_gt _ _)) by lia.
  - intros p Hn Hp Hstatus.
    rewrite decrementConnections_quiet by done. cbv zeta.
    rewrite (proj2 (Z.leb_le _ _)) by lia. rewrite Hp.
    destruct (status p =? "completed")%string eqn:E.
    { by apply String.eqb_eq in E. }
    unfold cancelProcess. rewrite clearProgress_quiet by done. simpl.
    unfold del_catalog, del_connections, del_progress, set_connections.
    simpl. by rewrite delete_delete_eq, delete_insert_eq.
Qed.

End Caches.

(** ** More on the fetch and the run, whatever the world does *)

Section Fetch.

Variable W : World.
Variable float : string → option PyFloat.
Variable filterDate : string → option Z.
Variable filterType : string → string.
Variable pid : string.

Lemma playlistData_pages_run answers acc st :
  playlistData_pages filterDate filterType pid answers acc st
  = (match listing_items answers with
     | Some items => Some (acc ++ map (entry_of filterDate filterType) items)
     | None => None
     end,
     mkState (listing_requests answers + ticks st) (redis st),
     replicate (listing_requests answers) (YouTube_list pid)).
Proof.
  revert acc st. induction answers as [|items|items following IH];
    intros acc st; rewrite (run_eta (playlistData_pages _ _ _ _ _ _));
    cbn [playlistData_pages];
    rewrite result_of_bind, state_of_bind, events_of_bind.
  - done.
  - done.
  - rewrite IH. cbn [result_of state_of events_of fst snd listing_items
                     listing_requests].
    unfold outside. cbn [result_of state_of events_of fst snd ticks redis].
    replace (listing_requests following + S (ticks st))%nat
      with (S (listing_requests following) + ticks st)%nat by lia.
    destruct (listing_items following) as [more|]; [|done].
    by rewrite map_app, app_assoc.
Qed.

(** X9.  [playlistData] returns the entries of all pages in page order, one
    entry per item; if any page request raises it returns [None], also when
    earlier pages were read.  It makes one request per page and never
    touches Redis. *)
Theorem playlistData_all_pages st :
  let answers := playlistItems W (ticks st) pid in
  playlistData W filterDate filterType pid st
  = (map (entry_of filterDate filterType) <$> listing_items answers,
     mkState (listing_requests answers + ticks st) (redis st),
     replicate (listing_requests answers) (YouTube_list pid)).
Proof.
  cbv zeta. unfold playlistData. rewrite playlistData_pages_run.
  by destruct (listing_items (playlistItems W (ticks st) pid)).
Qed.

(** X10.  When the fetch raises or finds no item, the run looks nothing up
    and writes nothing: after the page requests it deletes the three keys of
    the identifier and returns [None]. *)
Theorem processPlaylist_without_items st :
  let answers := playlistItems W (ticks st) pid in
  (listing_items answers = None ∨ listing_items answers = Some []) →
  result_of (processPlaylist W float filterDate filterType pid st) = None
  ∧ events_of (processPlaylist W float filterDate filterType pid st)
    = replicate (listing_requests answers) (YouTube_list pid)
      ++ [DEL_progress pid; DEL_connections pid; DEL_catalog pid].
Proof.
  intros answers Hno.
  assert (Hfetch : match result_of (playlistData W filterDate filterType pid st)
                   with None | Some [] => True | Some _ => False end).
  { unfold playlistData. rewrite playlistData_pages_run.
    cbn [result_of fst]. fold answers. by destruct Hno as [-> | ->]. }
  rewrite (processPlaylist_failed W float filterDate filterType pid st Hfetch).
  cbn [result_of events_of fst snd]. split; [done|].
  unfold playlistData. by rewrite playlistData_pages_run.
Qed.

(** *** What enrichment keeps *)

Lemma update_from_source_fields bestMatch item item' :
  update_from float bestMatch item = Some item' →
  source_fields item' = source_fields item.
Proof.
  unfold update_from.
  destruct (match ext_score bestMatch with
            | Some s => float s
            | None => Some 0%Q
            end); [|done].
  by intros [= <-].
Qed.

Lemma enrich_source_fields item item' st :
  result_of (enrich W float item st) = Some item' →
  source_fields item' = source_fields item.
Proof.
  unfold enrich. destruct (removed_or_private item); simpl.
  { by intros [= <-]. }
  rewrite result_of_bind. unfold outside at 1 2. simpl.
  destruct (search_releases W (ticks st) (ytname item)) as [|[[|b l]|]];
    try done; try by intros [= <-].
  apply update_from_source_fields.
Qed.

(** The loop keeps the source fields of every entry, in the snapshots it
    saves and in the catalog it ends with. *)
Lemma for_each_source_fields tot todo idx cat st :
  map source_fields todo = drop idx (map source_fields cat) →
  let o := for_each W float pid tot todo idx cat st in
  (∀ c, SETEX_catalog pid c ∈ events_of o →
        map source_fields c = map source_fields cat)
  ∧ (∀ final, result_of o = Exhausted final →
              map source_fields final = map source_fields cat).
Proof.
  revert idx cat st. induction todo as [|item todo IH];
    intros idx cat st Htodo; cbv zeta.
  { split; [by intros c ?%elem_of_nil | by intros final [= <-]]. }
  destruct (abandoned (result_of (getProgress W pid st))) eqn:Hab.
  { rewrite for_each_abandoned by done. cbn [events_of result_of snd fst].
    split; [|done]. by intros c ?%list_elem_of_singleton. }
  assert (Hidx : map source_fields cat !! idx = Some (source_fields item)).
  { rewrite <- (Nat.add_0_r idx), <- lookup_drop, <- Htodo. done. }
  assert (Hnext : map source_fields todo
                  = drop (S idx) (map source_fields cat)).
  { rewrite (drop_S _ _ _ Hidx) in Htodo. by injection Htodo. }
  destruct (result_of (enrich W float item (state_of (getProgress W pid st))))
    as [item'|] eqn:Hr.
  - destruct (for_each_saved W float pid tot item item' todo idx cat st Hab Hr)
      as (st3 & reply & now & ->).
    cbn [events_of result_of snd fst].
    assert (Hcat : map source_fields (<[idx:=item']> cat)
                   = map source_fields cat).
    { rewrite list_fmap_insert.
      rewrite (enrich_source_fields _ _ _ Hr). by apply list_insert_id. }
    destruct (IH (S idx) (<[idx:=item']> cat) st3) as [IHc IHf].
    { by rewrite Hcat. }
    split.
    + intros c Hc. apply elem_of_cons in Hc as [?|Hc]; [done|].
      apply elem_of_app in Hc as [Hc|Hc].
      { rewrite enrich_events in Hc. destruct (removed_or_private item).
        - by apply elem_of_nil in Hc.
        - by apply list_elem_of_singleton in Hc. }
      apply elem_of_app in Hc as [Hc|Hc]; [|by rewrite (IHc c Hc)].
      apply elem_of_cons in Hc as [[= ->]|Hc]; [done|].
      repeat (apply elem_of_cons in Hc as [?|Hc]; [done|]).
      by apply elem_of_nil in Hc.
    + intros final Hfinal. by rewrite (IHf final Hfinal).
  - rewrite for_each_raised by done. cbn [events_of result_of snd fst].
    destruct (IH (S idx) cat (state_of (enrich W float item
                (state_of (getProgress W pid st)))) Hnext) as [IHc IHf].
    split; [|done].
    intros c Hc. apply elem_of_cons in Hc as [?|Hc]; [done|].
    apply elem_of_app in Hc as [Hc|Hc]; [|by apply IHc].
    rewrite enrich_events in Hc. destruct (removed_or_private item).
    + by apply elem_of_nil in Hc.
    + by apply list_elem_of_singleton in Hc.
Qed.

(** X11.  A run never reorders, drops or adds entries and never changes
    what came from YouTube: every snapshot it saves and the catalog it
    returns have, entry by entry, the [position], [ytname], [ytlink] and
    [channel] of the fetched playlist. *)
Theorem processPlaylist_keeps_source_fields st fetched :
  result_of (playlistData W filterDate filterType pid st) = Some fetched →
  let run := processPlaylist W float filterDate filterType pid st in
  (∀ c, SETEX_catalog pid c ∈ events_of run →
        map source_fields c = map source_fields fetched)
  ∧ (∀ final, result_of run = Some final →
              map source_fields final = map source_fields fetched).
Proof.
  intros Hfetch. cbv zeta.
  pose proof (playlistData_events W filterDate filterType pid st) as Hyt.
  rewrite Forall_forall in Hyt.
  destruct fetched as [|e0 cat0].
  { rewrite processPlaylist_failed by by rewrite Hfetch.
    cbn [events_of result_of snd fst]. split; [|done].
    intros c [Hc|Hc]%elem_of_app; [by apply Hyt in Hc|].
    repeat (apply elem_of_cons in Hc as [?|Hc]; [done|]).
    by apply elem_of_nil in Hc. }
  destruct (processPlaylist_fetched W float filterDate filterType pid st
              (e0 :: cat0) Hfetch)
    as (st1 & reply & now & tail & Hev & Htail); [done|].
  cbv zeta in Hev, Htail.
  destruct (for_each_source_fields (Z.of_nat (List.length (e0 :: cat0)))
              (e0 :: cat0) 0 (e0 :: cat0) st1) as [Hc Hf]; [done|].
  split.
  - intros c Hin. rewrite Hev in Hin.
    apply elem_of_app in Hin as [Hin|Hin]; [by apply Hyt in Hin|].
    apply elem_of_app in Hin as [Hin|Hin].
    { repeat (apply elem_of_cons in Hin as [?|Hin]; [done|]).
      by apply elem_of_nil in Hin. }
    apply elem_of_app in Hin as [Hin|Hin]; [by apply Hc|].
    destruct Htail as [(_ & -> & _)|(c' & r' & n' & _ & -> & _)].
    + by apply elem_of_nil in Hin.
    + repeat (apply elem_of_cons in Hin as [?|Hin]; [done|]).
      by apply elem_of_nil in Hin.
  - intros final Hfinal.
    destruct Htail as [(_ & _ & Hrun)|(c & r' & n' & Hex & _ & Hres)].
    { rewrite Hrun in Hfinal. done. }
    rewrite Hres in Hfinal. injection Hfinal as ->. by apply Hf.
Qed.

(** *** The lookups of a run *)

Lemma queries_app l1 l2 : queries (l1 ++ l2) = queries l1 ++ queries l2.
Proof. apply omap_app. Qed.

Lemma queries_youtube evs :
  Forall (λ e, e = YouTube_list pid) evs → queries evs = [].
Proof. induction 1 as [|e evs -> _ IH]; [done|]. apply IH. Qed.

Lemma queries_enrich item st :
  queries (events_of (enrich W float item st))
  = if removed_or_private item then [] else [ytname item].
Proof. rewrite enrich_events. by destruct (removed_or_private item). Qed.

(** The loop asks for the titles of the entries it gets to, in order,
    leaving out the removed and private ones. *)
Lemma for_each_queries tot todo idx cat st :
  let o := for_each W float pid tot todo idx cat st in
  ∃ k, (k ≤ List.length todo)%nat
       ∧ queries (events_of o)
         = map ytname
             (filter (λ e, removed_or_private e = false) (take k todo))
       ∧ (∀ final, result_of o = Exhausted final → k = List.length todo).
Proof.
  revert idx cat st. induction todo as [|item todo IH]; intros idx cat st;
    cbv zeta.
  { exists 0%nat. split; [done|]. split; [done|]. by intros final _. }
  destruct (abandoned (result_of (getProgress W pid st))) eqn:Hab.
  { rewrite for_each_abandoned by done. cbn [events_of result_of snd fst].
    exists 0%nat. split; [simpl; lia|]. split; [done|]. by intros final. }
  assert (Hstep : ∀ k rest,
    queries rest
    = map ytname (filter (λ e, removed_or_private e = false) (take k todo)) →
    queries (events_of (enrich W float item
                          (state_of (getProgress W pid st)))) ++ queries rest
    = map ytname (filter (λ e, removed_or_private e = false)
                         (take (S k) (item :: todo)))).
  { intros k rest Hrest. rewrite queries_enrich, Hrest. cbn [take].
    rewrite filter_cons. destruct (removed_or_private item) eqn:Hrp.
    - by rewrite decide_False.
    - by rewrite decide_True. }
  destruct (result_of (enrich W float item (state_of (getProgress W pid st))))
    as [item'|] eqn:Hr.
  - destruct (for_each_saved W float pid tot item item' todo idx cat st Hab Hr)
      as (st3 & reply & now & ->).
    cbn [events_of result_of snd fst].
    destruct (IH (S idx) (<[idx:=item']> cat) st3) as (k & Hk & Hq & Hfin).
    exists (S k). split; [simpl; lia|]. split.
    + change (GET_progress ?a ?b :: ?l) with ([GET_progress a b] ++ l).
      rewrite !queries_app. cbn [app].
      change (queries [GET_progress _ _]) with (@nil string).
      change (queries [SETEX_catalog _ _; GET_connections _ _;
                       SETEX_progress _ _; Sleep]) with (@nil string).
      cbn [app]. by apply Hstep.
    + intros final Hfinal. by rewrite (Hfin final Hfinal).
  - rewrite for_each_raised by done. cbn [events_of result_of snd fst].
    destruct (IH (S idx) cat (state_of (enrich W float item
                (state_of (getProgress W pid st))))) as (k & Hk & Hq & Hfin).
    exists (S k). split; [simpl; lia|]. split.
    + change (GET_progress ?a ?b :: ?l) with ([GET_progress a b] ++ l).
      rewrite !queries_app. cbn [app].
      change (queries [GET_progress _ _]) with (@nil string).
      cbn [app]. by apply Hstep.
    + intros final Hfinal. by rewrite (Hfin final Hfinal).
Qed.

(** X12.  The MusicBrainz queries of a run are the source titles of the
    fetched entries it got to, in playlist order, one per entry, the removed
    and private ones left out; a run that returns a catalog has asked for
    every such title. *)
Theorem processPlaylist_queries st fetched :
  result_of (playlistData W filterDate filterType pid st) = Some fetched →
  let run := processPlaylist W float filterDate filterType pid st in
  (∃ k, queries (events_of run)
        = map ytname
            (filter (λ e, removed_or_private e = false) (take k fetched)))
  ∧ (∀ final, result_of run = Some final →
       queries (events_of run)
       = map ytname (filter (λ e, removed_or_private e = false) fetched)).
Proof.
  intros Hfetch. cbv zeta.
  pose proof (playlistData_events W filterDate filterType pid st) as Hyt.
  destruct fetched as [|e0 cat0].
  { rewrite processPlaylist_failed by by rewrite Hfetch.
    cbn [events_of result_of snd fst]. split; [|done]. exists 0%nat.
    by rewrite queries_app, queries_youtube. }
  destruct (processPlaylist_fetched W float filterDate filterType pid st
              (e0 :: cat0) Hfetch)
    as (st1 & reply & now & tail & Hev & Htail); [done|].
  cbv zeta in Hev, Htail.
  destruct (for_each_queries (Z.of_nat (List.length (e0 :: cat0)))
              (e0 :: cat0) 0 (e0 :: cat0) st1) as (k & Hk & Hq & Hfin).
  cbv zeta in Hq, Hfin.
  assert (Hall : queries (events_of
                   (processPlaylist W float filterDate filterType pid st))
                 = map ytname (filter (λ e, removed_or_private e = false)
                                      (take k (e0 :: cat0)))).
  { rewrite Hev, !queries_app, queries_youtube by done. cbn [app].
    change (queries [GET_connections _ _; SETEX_progress _ _])
      with (@nil string).
    cbn [app]. rewrite Hq.
    destruct Htail as [(_ & -> & _)|(c' & r' & n' & _ & -> & _)].
    - by rewrite app_nil_r.
    - change (queries [GET_connections _ _; SETEX_progress _ _])
        with (@nil string).
      by rewrite app_nil_r. }
  split; [by exists k|].
  intros final Hfinal.
  destruct Htail as [(_ & _ & Hrun)|(c & r' & n' & Hex & _ & Hres)].
  { rewrite Hrun in Hfinal. done. }
  rewrite Hall, (Hfin c Hex). by rewrite firstn_all.
Qed.

(** *** When MusicBrainz is down *)

Lemma enrich_raises item st :
  (∀ n q, search_releases W n q = SearchRaises) →
  removed_or_private item = false →
  result_of (enrich W float item st) = None.
Proof.
  intros Hdown Hrp. unfold enrich. rewrite Hrp. simpl.
  rewrite result_of_bind. unfold outside at 1 2. simpl. by rewrite Hdown.
Qed.

Lemma for_each_nothing_saved tot todo idx cat st :
  (∀ n q, search_releases W n q = SearchRaises) →
  Forall (λ e, removed_or_private e = false) todo →
  let o := for_each W float pid tot todo idx cat st in
  Forall (λ e, is_write e = false) (events_of o)
  ∧ (∀ final, result_of o = Exhausted final → final = cat).
Proof.
  intros Hdown Htodo. revert idx cat st.
  induction Htodo as [|item todo Hrp _ IH]; intros idx cat st; cbv zeta.
  { split; [constructor | by intros final [= <-]]. }
  destruct (abandoned (result_of (getProgress W pid st))) eqn:Hab.
  { rewrite for_each_abandoned by done. cbn [events_of result_of snd fst].
    split; [by repeat constructor | done]. }
  rewrite for_each_raised by (done || by apply enrich_raises).
  cbn [events_of result_of snd fst].
  destruct (IH (S idx) cat (state_of (enrich W float item
              (state_of (getProgress W pid st))))) as [IHw IHf].
  split; [|done]. constructor; [done|]. apply Forall_app. split; [|done].
  rewrite enrich_events. destruct (removed_or_private item);
    by repeat constructor.
Qed.

(** X13.  When every MusicBrainz call raises and no entry is removed or
    private, the run stores no snapshot at all: its only writes are Progress
    Records, the first with cursor 0 and, if nobody abandons the run, the
    [completed] one; the catalog it returns is the fetched one. *)
Theorem processPlaylist_lookups_down st fetched :
  (∀ n q, search_releases W n q = SearchRaises) →
  result_of (playlistData W filterDate filterType pid st) = Some fetched →
  Forall (λ e, removed_or_private e = false) fetched →
  let run := processPlaylist W float filterDate filterType pid st in
  catalog_writes pid (events_of run) = []
  ∧ (∀ p, p ∈ progress_writes pid (events_of run) →
          currentItem p = 0 ∧ status p = "processing"
          ∨ currentItem p = Z.of_nat (List.length fetched)
            ∧ status p = "completed")
  ∧ (∀ final, result_of run = Some final → final = fetched).
Proof.
  intros Hdown Hfetch Hrp. cbv zeta.
  pose proof (playlistData_events W filterDate filterType pid st) as Hyt.
  assert (Hnow : ∀ evs, Forall (λ e, is_write e = false) evs →
                        catalog_writes pid evs = []
                        ∧ progress_writes pid evs = []).
  { induction 1 as [|e evs He _ [IH1 IH2]]; [done|].
    destruct e; try discriminate He; split; (exact IH1 || exact IH2). }
  assert (Hytw : Forall (λ e, is_write e = false)
            (events_of (playlistData W filterDate filterType pid st))).
  { eapply Forall_impl; [exact Hyt|]. by intros e ->. }
  destruct fetched as [|e0 cat0].
  { rewrite processPlaylist_failed by by rewrite Hfetch.
    cbn [events_of result_of snd fst].
    assert (Hw : Forall (λ e, is_write e = false)
              (events_of (playlistData W filterDate filterType pid st)
               ++ [DEL_progress pid; DEL_connections pid; DEL_catalog pid])).
    { apply Forall_app. split; [done | by repeat constructor]. }
    destruct (Hnow _ Hw) as [-> ->]. split; [done|]. split; [|done].
    by intros p ?%elem_of_nil. }
  destruct (processPlaylist_fetched W float filterDate filterType pid st
              (e0 :: cat0) Hfetch)
    as (st1 & reply & now & tail & Hev & Htail); [done|].
  cbv zeta in Hev, Htail.
  destruct (for_each_nothing_saved (Z.of_nat (List.length (e0 :: cat0)))
              (e0 :: cat0) 0 (e0 :: cat0) st1 Hdown Hrp) as [Hw Hf].
  cbv zeta in Hw, Hf.
  destruct (Hnow _ Hw) as [Hcw Hpw]. destruct (Hnow _ Hytw) as [Hcy Hpy].
  assert (Happ : ∀ l1 l2, catalog_writes pid (l1 ++ l2)
                          = catalog_writes pid l1 ++ catalog_writes pid l2).
  { intros l1 l2. apply omap_app. }
  rewrite Hev, !Happ, !progress_writes_app, Hcw, Hpw, Hcy, Hpy.
  cbn [app]. rewrite progress_writes_save.
  change (catalog_writes pid [GET_connections _ _; SETEX_progress _ _])
    with (@nil (list Entry)).
  change (progress_writes pid []) with (@nil Progress).
  cbn [app]. split; [|split].
  - by destruct Htail as [(_ & -> & _)|(c' & r' & n' & _ & -> & _)].
  - intros p Hp. apply elem_of_cons in Hp as [->|Hp]; [by left|].
    destruct Htail as [(_ & -> & _)|(c' & r' & n' & _ & -> & _)].
    + by apply elem_of_nil in Hp.
    + rewrite progress_writes_save in Hp.
      apply list_elem_of_singleton in Hp as ->. by right.
  - intros final Hfinal.
    destruct Htail as [(_ & _ & Hrun)|(c & r' & n' & Hex & _ & Hres)].
    { rewrite Hrun in Hfinal. done. }
    rewrite Hres in Hfinal. injection Hfinal as ->. by apply Hf.
Qed.

(** X14.  A start request whose body is a JSON object with a string
    [playlistUrl] in which no [list=<id>] token starts is answered 400 with
    the message [Invalid YouTube playlist URL] and has no effect: no Redis
    command, no call to YouTube or MusicBrainz. *)
Theorem startProcess_rejects st url :
  Url.no_token url →
  startProcess W float filterDate filterType (Some url) st
  = (Error "Invalid YouTube playlist URL" 400, st, []).
Proof.
  intros Hno. unfold startProcess, filterPlaylistId.
  by rewrite UrlFacts.re_search_no_token.
Qed.

End Fetch.

(** ** The stream endpoint *)

Section Stream.

Variable W : World.
Variable client_gone : nat → bool.

Lemma poll_events id rounds st :
  Forall (λ e, bystander e = true)
         (events_of (poll W client_gone id rounds st)).
Proof.
  revert st. induction rounds as [|rounds IH]; intros st; [constructor|].
  cbn [poll]. rewrite !events_of_bind.
  constructor; [done|]. constructor; [done|].
  destruct (result_of (getProgress W id st)) as [p|]; [|constructor].
  destruct (activeConnections p <=? 0); [constructor|].
  destruct (if (status p =? "completed")%string then _ else None);
    [constructor|].
  destruct (status p =? "processing")%string.
  - rewrite events_of_bind. cbn [app].
    match goal with |- context [if ?b then _ else _] => destruct b end;
      [constructor|].
    rewrite !events_of_bind. constructor; [done|].
    apply Forall_app. split; [apply IH | constructor].
  - rewrite events_of_bind. constructor; [done|]. apply IH.
Qed.

Lemma decrementConnections_events id st :
  ∃ n tail,
    events_of (decrementConnections W id st) = DECR_connections id n :: tail
    ∧ Forall (λ e, bystander e = true) tail.
Proof.
  unfold decrementConnections. rewrite events_of_bind.
  eexists _, _. split; [reflexivity|].
  destruct (result_of (redis_decr W id st) <=? 0); [|constructor].
  rewrite !events_of_bind. constructor; [done|]. constructor; [done|].
  match goal with |- context [match ?x with Some _ => _ | None => _ end] =>
    destruct x as [p|] end; [|constructor].
  destruct (negb (status p =? "completed")%string); [|constructor].
  rewrite events_of_bind. by repeat constructor.
Qed.

Lemma bystanders_counted evs :
  Forall (λ e, bystander e = true) evs →
  Forall (λ e, is_write e = false) evs
  ∧ filter (λ e, is_incr e = true) evs = []
  ∧ filter (λ e, is_decr e = true) evs = [].
Proof.
  induction 1 as [|e evs He _ (IH1 & IH2 & IH3)]; [done|].
  unfold bystander in He. apply andb_prop in He as [He Hd].
  apply andb_prop in He as [Hw Hi]. apply negb_true_iff in Hw, Hi, Hd.
  split; [by constructor|]. rewrite !filter_cons.
  rewrite !decide_False by congruence. done.
Qed.

(** X15.  A stream request never writes a snapshot or a Progress Record.
    It attaches once, at its start, and detaches exactly once when its loop
    has ended; as long as the loop runs it has not detached. *)
Theorem streamProcess_attaches_once id rounds st :
  let o := streamProcess W client_gone id rounds st in
  Forall (λ e, is_write e = false) (events_of o)
  ∧ (∃ n rest, events_of o = INCR_connections id n :: rest
               ∧ filter (λ e, is_incr e = true) rest = [])
  ∧ List.length (filter (λ e, is_decr e = true) (events_of o))
    = if (result_of o).2 then 1%nat else 0%nat.
Proof.
  cbv zeta. unfold streamProcess.
  rewrite !events_of_bind, !result_of_bind.
  change (events_of (incrementConnections W id st))
    with [INCR_connections id (result_of (incrementConnections W id st))].
  set (st1 := state_of (incrementConnections W id st)).
  pose proof (poll_events id rounds st1) as Hpoll.
  apply bystanders_counted in Hpoll as (Hpw & Hpi & Hpd).
  destruct ((result_of (poll W client_gone id rounds st1)).2) eqn:Hend.
  - rewrite result_of_bind, events_of_bind.
    change (result_of (ret ?x ?s)) with x. rewrite Hend.
    destruct (decrementConnections_events id
                (state_of (poll W client_gone id rounds st1)))
      as (n & tail & -> & Htail).
    apply bystanders_counted in Htail as (Htw & Hti & Htd).
    change (events_of (ret ?x ?s)) with (@nil Event). rewrite app_nil_r.
    split; [|split].
    + constructor; [done|]. apply Forall_app. split; [done|].
      by constructor.
    + eexists _, _. split; [reflexivity|].
      rewrite filter_app, Hpi, filter_cons, decide_False by done.
      by rewrite Hti.
    + cbn [app]. rewrite filter_cons, decide_False by done.
      rewrite filter_app, Hpd, filter_cons, decide_True by done.
      by rewrite Htd.
  - change (result_of (ret ?x ?s)) with x. rewrite Hend.
    change (events_of (ret ?x ?s)) with (@nil Event). rewrite app_nil_r.
    split; [|split].
    + by constructor.
    + eexists _, _. split; [reflexivity|]. done.
    + cbn [app]. rewrite filter_cons, decide_False by done. by rewrite Hpd.
Qed.

End Stream.

(** ** The stream endpoint, with nobody else active *)

Section StreamQuiet.

Variable W : World.
Hypothesis W_quiet : quiet W.
Variable client_gone : nat → bool.

Lemma detach_redis id st :
  redis (state_of (decrementConnections W id st)) = after_detach id (redis st).
Proof.
  rewrite decrementConnections_quiet by done. unfold after_detach. cbv zeta.
  destruct (viewers (redis st) id - 1 <=? 0); [|done].
  destruct (progress_key (redis st) !! id) as [p|]; [|done].
  by destruct (negb (status p =? "completed")%string).
Qed.

(** Polling reads only. *)
Lemma poll_redis id rounds st :
  redis (state_of (poll W client_gone id rounds st)) = redis st.
Proof.
  revert st. induction rounds as [|rounds IH]; intros st; [done|].
  cbn [poll]. rewrite !state_of_bind.
  rewrite getProgress_quiet by done. cbn [result_of state_of fst snd].
  rewrite getCatalog_quiet by done. cbn [result_of state_of fst snd redis].
  destruct (progress_key (redis st) !! id) as [p|]; [|done].
  destruct (activeConnections p <=? 0); [done|].
  destruct (if (status p =? "completed")%string then _ else None); [done|].
  destruct (status p =? "processing")%string.
  - rewrite state_of_bind.
    destruct (result_of (outside client_gone [] _)); [done|].
    rewrite !state_of_bind. change (state_of (ret ?x ?s)) with s.
    by rewrite IH.
  - rewrite state_of_bind. by rewrite IH.
Qed.

(** The first round of polling, by what it reads. *)
Lemma poll_first id rounds st :
  result_of (poll W client_gone id (S rounds) st)
  = match progress_key (redis st) !! id with
    | None => ([ErrorMessage "Playlist not found"], true)
    | Some p =>
        if activeConnections p <=? 0
        then ([ErrorMessage "No active connections"], true)
        else
          match (if (status p =? "completed")%string
                 then catalog_key (redis st) !! id else None) with
          | Some data => ([CompletedMessage data], true)
          | None =>
              let later := result_of (poll W client_gone id rounds
                             (mkState ((if (status p =? "processing")%string
                                        then 4 else 3) + ticks st)%nat
                                      (redis st))) in
              if (status p =? "processing")%string then
                let event := ProcessingMessage (currentItem p) (totalItems p)
                               (catalog_key (redis st) !! id) in
                if client_gone (2 + ticks st)%nat then ([event], true)
                else (event :: later.1, later.2)
              else later
          end
    end.
Proof.
  cbn [poll]. rewrite !result_of_bind.
  rewrite getProgress_quiet by done. cbn [result_of state_of fst snd].
  rewrite getCatalog_quiet by done. cbn [result_of state_of fst snd redis].
  destruct (progress_key (redis st) !! id) as [p|]; [|done].
  destruct (activeConnections p <=? 0); [done|].
  destruct (if (status p =? "completed")%string then _ else None); [done|].
  cbv zeta. destruct (status p =? "processing")%string.
  - rewrite result_of_bind.
    change (result_of (outside client_gone [] ?s)) with (client_gone (ticks s)).
    cbn [ticks]. change (2 + ticks st)%nat with (S (S (ticks st))).
    destruct (client_gone (S (S (ticks st)))); [done|].
    rewrite !result_of_bind. reflexivity.
  - rewrite result_of_bind. reflexivity.
Qed.

(** A stream request as a whole: what it yields is what its polling yields,
    and Redis is left attached while the loop runs, detached after. *)
Lemma streamProcess_quiet id rounds st :
  let r1 := set_connections id (viewers (redis st) id + 1) (redis st) in
  let out := result_of (poll W client_gone id rounds
                          (mkState (S (ticks st)) r1)) in
  result_of (streamProcess W client_gone id rounds st) = out
  ∧ redis (state_of (streamProcess W client_gone id rounds st))
    = if out.2 then after_detach id r1 else r1.
Proof.
  cbv zeta. unfold streamProcess.
  rewrite !result_of_bind, !state_of_bind.
  rewrite incrementConnections_quiet by done.
  cbn [result_of state_of fst snd].
  set (st1 := mkState (S (ticks st)) _).
  destruct ((result_of (poll W client_gone id rounds st1)).2) eqn:Hend.
  - rewrite result_of_bind, state_of_bind. split; [done|].
    change (state_of (ret ?x ?s)) with s.
    by rewrite detach_redis, poll_redis.
  - split; [done|]. change (state_of (ret ?x ?s)) with s.
    by rewrite poll_redis.
Qed.

Lemma viewers_attached id r :
  viewers (set_connections id (viewers r id + 1) r) id - 1 = viewers r id.
Proof. unfold viewers. simpl. rewrite lookup_insert_eq. simpl. lia. Qed.

(** X16.  A stream opened on a run whose record is [completed] and carries
    a positive [activeConnections], with a snapshot stored, yields that
    snapshot in one [completed] event and ends; the Progress Records and
    snapshots are left as they were, and of the Viewer Count only the
    stream's own attach is undone.  (A record whose stored count is not
    positive is answered [No active connections] whatever its status.) *)
Theorem streamProcess_completed id rounds st p c :
  progress_key (redis st) !! id = Some p →
  status p = "completed" →
  0 < activeConnections p →
  catalog_key (redis st) !! id = Some c →
  let o := streamProcess W client_gone id (S rounds) st in
  result_of o = ([CompletedMessage c], true)
  ∧ progress_key (redis (state_of o)) = progress_key (redis st)
  ∧ catalog_key (redis (state_of o)) = catalog_key (redis st)
  ∧ connections_key (redis (state_of o))
    = if viewers (redis st) id <=? 0
      then delete id (connections_key (redis st))
      else connections_key (redis st).
Proof.
  intros Hp Hstatus Hact Hc. cbv zeta.
  destruct (streamProcess_quiet id (S rounds) st) as [Hres Hredis].
  cbv zeta in Hres, Hredis. rewrite poll_first in Hres, Hredis.
  cbn [redis progress_key catalog_key set_connections] in Hres, Hredis.
  rewrite Hp, Hc, Hstatus in Hres, Hredis.
  rewrite (proj2 (Z.leb_gt _ _) Hact) in Hres, Hredis.
  cbn [String.eqb Ascii.eqb Bool.eqb] in Hres, Hredis.
  cbn [snd] in Hredis. rewrite Hres, Hredis. split; [done|].
  unfold after_detach. cbv zeta. rewrite viewers_attached.
  cbn [progress_key set_connections]. rewrite Hp, Hstatus.
  cbn [String.eqb Ascii.eqb Bool.eqb negb].
  destruct (viewers (redis st) id <=? 0) eqn:E; simpl.
  - repeat split; try done. by rewrite !delete_insert_eq.
  - repeat split; try done. rewrite insert_insert_eq. apply insert_id.
    apply Z.leb_gt in E. unfold viewers in *.
    destruct (connections_key (redis st) !! id); simpl in *; [done | lia].
Qed.

(** X17.  A stream opened on an identifier without Progress Record yields
    [Playlist not found] and ends, leaving records and snapshots as they
    were.  One opened on a record whose stored [activeConnections] is not
    positive yields [No active connections] and ends: the count it looks at
    is the one stored with the record, not the live one, which its own attach
    has just raised. *)
Theorem streamProcess_errors id rounds st :
  let o := streamProcess W client_gone id (S rounds) st in
  (progress_key (redis st) !! id = None →
   result_of o = ([ErrorMessage "Playlist not found"], true)
   ∧ progress_key (redis (state_of o)) = progress_key (redis st)
   ∧ catalog_key (redis (state_of o)) = catalog_key (redis st))
  ∧ (∀ p, progress_key (redis st) !! id = Some p →
          activeConnections p ≤ 0 →
          result_of o = ([ErrorMessage "No active connections"], true)
          ∧ viewers (redis (state_of (incrementConnections W id st))) id
            = viewers (redis st) id + 1).
Proof.
  cbv zeta.
  destruct (streamProcess_quiet id (S rounds) st) as [Hres Hredis].
  cbv zeta in Hres, Hredis. rewrite poll_first in Hres, Hredis.
  cbn [redis progress_key catalog_key set_connections] in Hres, Hredis.
  split.
  - intros Hp. rewrite Hp in Hres, Hredis. cbn [snd] in Hredis.
    rewrite Hres, Hredis. split; [done|].
    unfold after_detach. cbv zeta. cbn [progress_key set_connections].
    rewrite Hp. by destruct (_ <=? 0).
  - intros p Hp Hact. rewrite Hp in Hres.
    rewrite (proj2 (Z.leb_le _ _) Hact) in Hres. split; [done|].
    rewrite incrementConnections_quiet by done. unfold viewers. simpl.
    by rewrite lookup_insert_eq.
Qed.




(** While the observer stays and the record stays as it is, every round
    yields the same [processing] event and the loop goes on. *)
Lemma poll_watching id rounds st p :
  (∀ n, client_gone n = false) →
  progress_key (redis st) !! id = Some p →
  status p = "processing" →
  0 < activeConnections p →
  result_of (poll W client_gone id rounds st)
  = (replicate rounds
       (ProcessingMessage (currentItem p) (totalItems p)
          (catalog_key (redis st) !! id)), false).
Proof.
  intros Hstay Hp Hstatus Hact. revert st Hp.
  induction rounds as [|rounds IH]; intros st Hp; [done|].
  rewrite poll_first, Hp, Hstatus, Hstay.
  rewrite (proj2 (Z.leb_gt _ _) Hact).
  cbn [String.eqb Ascii.eqb Bool.eqb]. cbv zeta.
  by rewrite IH.
Qed.

(** X20.  While the observer stays and nothing changes the record of a run
    in progress, the stream yields one [processing] event per round, each
    with the stored cursor, total and snapshot, and does not end; it changes
    nothing in Redis but the Viewer Count its attach has raised. *)
Theorem streamProcess_watches id rounds st p :
  (∀ n, client_gone n = false) →
  progress_key (redis st) !! id = Some p →
  status p = "processing" →
  0 < activeConnections p →
  result_of (streamProcess W client_gone id rounds st)
  = (replicate rounds
       (ProcessingMessage (currentItem p) (totalItems p)
          (catalog_key (redis st) !! id)), false)
  ∧ redis (state_of (streamProcess W client_gone id rounds st))
    = set_connections id (viewers (redis st) id + 1) (redis st).
Proof.
  intros Hstay Hp Hstatus Hact.
  destruct (streamProcess_quiet id rounds st) as [Hres Hredis].
  cbv zeta in Hres, Hredis.
  rewrite (poll_watching id rounds _ p) in Hres, Hredis by done.
  by rewrite Hres, Hredis.
Qed.

End StreamQuiet.

(** ** Artist credits *)

Lemma append_assoc (a b c : string) :
  ((a ++ b) ++ c = a ++ b ++ c)%string.
Proof.
  induction a as [|x a IH]; [done|].
  change (String x ((a ++ b) ++ c)%string = String x (a ++ b ++ c)%string).
  by rewrite IH.
Qed.

Lemma artistFormat_dict credit rest :
  ArtistCredit.artistFormat (ArtistCredit.Dict credit :: rest)
  = match ArtistCredit.artistFormat rest with
    | Some joined =>
        Some (default "" (credit_name credit)
              ++ default "" (credit_joinphrase credit) ++ joined)%string
    | None => None
    end.
Proof. done. Qed.

Example artistFormat_join_phrase_as_text :
  ArtistCredit.artistFormat
    [ArtistCredit.Dict (mkCredit (Some "Kirk") None);
     ArtistCredit.Str " & ";
     ArtistCredit.Dict (mkCredit (Some "Spock") None)]
  = None
  ∧ ArtistCredit.artistFormat
      [ArtistCredit.Dict (mkCredit (Some "Kirk") (Some " & "));
       ArtistCredit.Dict (mkCredit (Some "Spock") None)]
    = Some "Kirk & Spock".
Proof. split; reflexivity. Qed.

(** X21.  [artistFormat] returns a text exactly when every element of the
    credit list is a dict, and raises as soon as one element is a plain
    string.  On dicts alone the text is each credit's name followed by its
    join phrase, a missing one counting as empty, in the order of the list;
    and two lists in a row give a text exactly when each of them does, the
    two texts in a row. *)
Theorem artistFormat_items :
  (∀ data,
     ArtistCredit.artistFormat data = None
     ↔ ∃ text, ArtistCredit.Str text ∈ data)
  ∧ (∀ credits,
       ArtistCredit.artistFormat (ArtistCredit.Dict <$> credits)
       = Some (artistFormat credits))
  ∧ (∀ data more,
       ArtistCredit.artistFormat (data ++ more)
       = match ArtistCredit.artistFormat data,
               ArtistCredit.artistFormat more with
         | Some first, Some second => Some (first ++ second)%string
         | _, _ => None
         end).
Proof.
  split; [|split].
  - induction data as [|[credit|text] data IH].
    + split; [done|]. intros (text & Hin). by apply elem_of_nil in Hin.
    + rewrite artistFormat_dict. split.
      * destruct (ArtistCredit.artistFormat data) eqn:E; [done|].
        intros _. destruct (proj1 IH eq_refl) as (text & Hin).
        exists text. by apply elem_of_cons; right.
      * intros (text & Hin). apply elem_of_cons in Hin as [Heq|Hin]; [done|].
        by rewrite (proj2 IH (ex_intro _ text Hin)).
    + split; [|done]. intros _. exists text. by apply elem_of_cons; left.
  - induction credits as [|credit credits IH]; [done|].
    change (ArtistCredit.Dict <$> credit :: credits)
      with (ArtistCredit.Dict credit :: (ArtistCredit.Dict <$> credits)).
    by rewrite artistFormat_dict, IH.
  - induction data as [|[credit|text] data IH]; intros more.
    + change ([] ++ more) with more.
      change (ArtistCredit.artistFormat []) with (Some "").
      by destruct (ArtistCredit.artistFormat more).
    + change ((ArtistCredit.Dict credit :: data) ++ more)
        with (ArtistCredit.Dict credit :: (data ++ more)).
      rewrite !artistFormat_dict, IH.
      destruct (ArtistCredit.artistFormat data) as [first|]; [|done].
      destruct (ArtistCredit.artistFormat more) as [second|]; [|done].
      by rewrite !append_assoc.
    + done.
Qed.

(** ** The further properties at concrete inputs *)

(** X1, at a title with a year. *)
Lemma filterDate_year_witness :
  1900 ≤ 1999 ≤ 2024
  ∧ ∃ pre c3 c4 post,
      Title.digitChar c3 = true ∧ Title.digitChar c4 = true
      ∧ Title.boundary_before (Title.last_char pre) = true
      ∧ Title.boundary_after post = true
      ∧ ("Kirk - Live 1999 (Album)"
         = (pre ++ String "1" (String "9" (String c3 (String c4 post))))%string
         ∧ 1999 = 1900 + 10 * Title.digit_value c3 + Title.digit_value c4
         ∨ "Kirk - Live 1999 (Album)"
           = (pre ++ String "2" (String "0" (String c3 (String c4 post))))%string
           ∧ 1999 = 2000 + 10 * Title.digit_value c3 + Title.digit_value c4).
Proof.
  apply (filterDate_year "Kirk - Live 1999 (Album)" 1999).
  - reflexivity.
  - vm_compute. reflexivity.
Defined.

(** X2, at a title whose first year is out of range and whose second is
    not. *)
Lemma filterDate_first_candidate_witness :
  Title.filterDate "Live 2050 (1999)" = None.
Proof.
  apply (filterDate_first_candidate "Live " "2" "0" "5" "0" " (1999)").
  - reflexivity.
  - reflexivity.
  - reflexivity.
  - right. split; reflexivity.
  - reflexivity.
  - reflexivity.
  - reflexivity.
Defined.

(** X3, at a title that also says Single. *)
Lemma filterType_album_witness :
  Title.filterType "The Single lP" = "Album".
Proof.
  apply (filterType_album "The Single " "lP" "").
  - reflexivity.
  - right. reflexivity.
  - reflexivity.
  - reflexivity.
Defined.

(** X4, at an EP and at a title without L and P. *)
Lemma filterType_without_l_witness :
  Title.filterType "Kirk - Demo Ep (2001)" = "EP"
  ∧ Title.filterType "Kirk - Demo" = "Unknown".
Proof.
  split.
  - apply (proj1 (proj2 (filterType_without_l "Kirk - Demo Ep (2001)"
                           eq_refl eq_refl))
             "Kirk - Demo " "Ep" " (2001)"); reflexivity.
  - apply (proj2 (proj2 (filterType_without_l "Kirk - Demo" eq_refl
                           eq_refl))).
    reflexivity.
Defined.

(** X5, at the empty Redis. *)
Lemma saveCatalog_getCatalog_witness :
  result_of (getCatalog Scenario.calm "PL1"
               (state_of (saveCatalog Scenario.calm "PL1" [Scenario.entry_a]
                            Scenario.fresh)))
  = Some [Scenario.entry_a].
Proof.
  apply (saveCatalog_getCatalog Scenario.calm (λ _ _, eq_refl) "PL1"
           [Scenario.entry_a] Scenario.fresh).
Defined.

(** X6, with one viewer attached. *)
Lemma saveProgress_getProgress_witness :
  ∃ now,
    result_of (getProgress Scenario.calm "PL1"
                 (state_of (saveProgress Scenario.calm "PL1" 2 3 "processing"
                              Scenario.watched)))
    = Some (mkProgress "processing" 2 3 now 1).
Proof.
  apply (saveProgress_getProgress Scenario.calm (λ _ _, eq_refl) "PL1" 2 3
           "processing" Scenario.watched).
Defined.

(** X7, at a run in progress. *)
Lemma cancelProcess_clears_witness :
  result_of (getStatus Scenario.calm "PL1"
               (state_of (cancelProcess Scenario.calm "PL1"
                            Scenario.watched_run)))
  = None.
Proof.
  apply (cancelProcess_clears Scenario.calm (λ _ _, eq_refl) "PL1"
           Scenario.watched_run).
Defined.

(** X8, at the detach of the only viewer of a run in progress. *)
Lemma decrementConnections_last_or_not_witness :
  redis (state_of (decrementConnections Scenario.calm "PL1"
                     Scenario.watched_run))
  = redis (state_of (cancelProcess Scenario.calm "PL1" Scenario.watched_run)).
Proof.
  apply (proj2 (decrementConnections_last_or_not Scenario.calm
                  (λ _ _, eq_refl) "PL1" Scenario.watched_run)
           Scenario.in_progress).
  - vm_compute. discriminate.
  - reflexivity.
  - discriminate.
Defined.

(** X10, at a fetch whose second page raises. *)
Lemma processPlaylist_without_items_witness :
  result_of (Scenario.run Scenario.offline Scenario.watched) = None
  ∧ events_of (Scenario.run Scenario.offline Scenario.watched)
    = [YouTube_list "PL1"; YouTube_list "PL1"; DEL_progress "PL1";
       DEL_connections "PL1"; DEL_catalog "PL1"].
Proof.
  apply (processPlaylist_without_items Scenario.offline Scenario.float
           Scenario.filterDate Scenario.filterType "PL1" Scenario.watched).
  left. reflexivity.
Defined.

(** X11, at the concrete playlist. *)
Lemma processPlaylist_keeps_source_fields_witness :
  ∃ final,
    result_of (Scenario.run Scenario.calm Scenario.watched) = Some final
    ∧ map source_fields final
      = map source_fields
          [Scenario.entry_a; Scenario.entry_hidden; Scenario.entry_b].
Proof.
  destruct (processPlaylist_keeps_source_fields Scenario.calm Scenario.float
              Scenario.filterDate Scenario.filterType "PL1" Scenario.watched
              [Scenario.entry_a; Scenario.entry_hidden; Scenario.entry_b])
    as [_ Hfinal].
  - vm_compute. reflexivity.
  - destruct (result_of (Scenario.run Scenario.calm Scenario.watched))
      as [final|] eqn:Hres; [|vm_compute in Hres; discriminate].
    exists final. split; [reflexivity|]. by apply Hfinal.
Defined.

(** X12, at the concrete playlist. *)
Lemma processPlaylist_queries_witness :
  ∃ k, queries (events_of (Scenario.run Scenario.calm Scenario.watched))
       = map ytname
           (filter (λ e, removed_or_private e = false)
              (take k [Scenario.entry_a; Scenario.entry_hidden;
                       Scenario.entry_b])).
Proof.
  apply (processPlaylist_queries Scenario.calm Scenario.float
           Scenario.filterDate Scenario.filterType "PL1" Scenario.watched
           [Scenario.entry_a; Scenario.entry_hidden; Scenario.entry_b]).
  vm_compute. reflexivity.
Defined.

(** X13, with MusicBrainz down. *)
Lemma processPlaylist_lookups_down_witness :
  catalog_writes "PL1" (events_of (Scenario.run Scenario.down Scenario.watched))
  = [].
Proof.
  apply (processPlaylist_lookups_down Scenario.down Scenario.float
           Scenario.filterDate Scenario.filterType "PL1" Scenario.watched
           [Scenario.entry_a; Scenario.entry_b]).
  - reflexivity.
  - vm_compute. reflexivity.
  - repeat constructor.
Defined.

(** X14, at a URL whose [list=] has no identifier. *)
Lemma startProcess_rejects_witness :
  startProcess Scenario.calm Scenario.float Scenario.filterDate
    Scenario.filterType (Some "https://www.youtube.com/watch?v=abc&list=")
    Scenario.fresh
  = (Error "Invalid YouTube playlist URL" 400, Scenario.fresh, []).
Proof.
  apply (startProcess_rejects Scenario.calm Scenario.float
           Scenario.filterDate Scenario.filterType Scenario.fresh).
  apply UrlFacts.token_before_none. vm_compute. reflexivity.
Defined.

(** X16, at a completed run with its snapshot. *)
Lemma streamProcess_completed_witness :
  result_of (streamProcess Scenario.calm (λ _, false) "PL1" 1
               Scenario.completed_run)
  = ([CompletedMessage [Scenario.entry_a]], true).
Proof.
  apply (streamProcess_completed Scenario.calm (λ _ _, eq_refl) (λ _, false)
           "PL1" 0 Scenario.completed_run Scenario.finished
           [Scenario.entry_a]).
  - reflexivity.
  - reflexivity.
  - reflexivity.
  - reflexivity.
Defined.

(** X17, at the empty Redis and at a record stored without viewers. *)
Lemma streamProcess_errors_witness :
  result_of (streamProcess Scenario.calm (λ _, false) "PL1" 1 Scenario.fresh)
  = ([ErrorMessage "Playlist not found"], true)
  ∧ result_of (streamProcess Scenario.calm (λ _, false) "PL1" 1
                 Scenario.stale_run)
    = ([ErrorMessage "No active connections"], true).
Proof.
  split.
  - apply (proj1 (streamProcess_errors Scenario.calm (λ _ _, eq_refl)
                    (λ _, false) "PL1" 0 Scenario.fresh)).
    reflexivity.
  - apply (proj2 (streamProcess_errors Scenario.calm (λ _ _, eq_refl)
                    (λ _, false) "PL1" 0 Scenario.stale_run)
             (mkProgress "processing" 0 3 0%Q 0)).
    + reflexivity.
    + vm_compute. discriminate.
Defined.



(** X20, at a run in progress, for three rounds. *)
Lemma streamProcess_watches_witness :
  result_of (streamProcess Scenario.calm (λ _, false) "PL1" 3
               Scenario.watched_run)
  = (replicate 3 (ProcessingMessage 1 3 (Some [Scenario.entry_a])), false).
Proof.
  apply (streamProcess_watches Scenario.calm (λ _ _, eq_refl) (λ _, false)
           "PL1" 3 Scenario.watched_run Scenario.in_progress).
  - reflexivity.
  - reflexivity.
  - reflexivity.
  - reflexivity.
Defined.
